(** * Autoloading of functions and completions (src/autoload.cpp)

    A shallow embedding of [lru_cache_impl_t], the intrusive least-recently
    used cache, and of [autoload_t], the autoloader built on top of it.

    Memory is modelled explicitly: nodes live in a heap indexed by pointers
    (natural numbers), the sentinel [mouth] is the node at pointer 1, and
    [prev]/[next] are pointer fields written one assignment at a time as the
    C++ does.  The [node_set] (a [std::set] of node pointers ordered by key)
    is a map from keys to pointers.  Everything runs in a small state and
    error monad: a failed [assert] is [None].  Effects that leave the object
    (probing a file, running a subshell, unregistering a command, printing a
    diagnostic, freeing a node) are appended to an event log. *)

From Stdlib Require Import ZArith Lia.
From stdpp Require Import base gmap strings list.

(** ** Data *)

Definition ptr := nat.

(** [NULL], and the sentinel node: [mouth] is a member of the cache object;
    it is the node at pointer 1 here.  Allocated nodes start at 2. *)
Definition null : ptr := 0.
Definition mouth : ptr := 1.

(** [file_access_attempt_t] *)
Record file_access_attempt := mkAccess {
  mod_time : Z;
  last_checked : Z;
  accessible : bool;
  stale : bool;
  error : Z
}.

(** [{0}]: the zero-initialised attempt. *)
Definition access_zero : file_access_attempt := mkAccess 0 0 false false 0.

(** An [autoload_function_t]: the [lru_node_t] fields [key], [prev], [next]
    followed by the fields the autoloader adds. *)
Record node := mkNode {
  key : string;
  prev : ptr;
  next : ptr;
  access : file_access_attempt;
  is_loaded : bool;
  is_placeholder : bool
}.

Definition set_next_field (n : node) (v : ptr) : node :=
  mkNode (key n) (prev n) v (access n) (is_loaded n) (is_placeholder n).
Definition set_prev_field (n : node) (v : ptr) : node :=
  mkNode (key n) v (next n) (access n) (is_loaded n) (is_placeholder n).
Definition set_access_field (n : node) (a : file_access_attempt) : node :=
  mkNode (key n) (prev n) (next n) a (is_loaded n) (is_placeholder n).
Definition set_loaded_field (n : node) (b : bool) : node :=
  mkNode (key n) (prev n) (next n) (access n) b (is_placeholder n).
Definition set_placeholder_field (n : node) (b : bool) : node :=
  mkNode (key n) (prev n) (next n) (access n) (is_loaded n) b.

(** Observable effects of the code. *)
Inductive event :=
  | FileProbed (path : string)        (* [access_file]: stat + access *)
  | SubshellRun (source : string)     (* [exec_subshell] *)
  | CommandRemoved (cmd : string)     (* [command_removed] *)
  | NodeDeleted (p : ptr)             (* [delete node] *)
  | CircularWarning (cmd : string)    (* [debug(0, ...)] in [load] *)
  | BlockedCallWarning (fn : string). (* [debug(0, ...)] in [CHECK_BLOCK] *)

(** The [autoload_t] object (with its [lru_cache_impl_t] base), the heap of
    nodes, and the log of effects. *)
Record world := mkWorld {
  max_node_count : nat;
  node_count : nat;
  node_set : gmap string ptr;
  heap : ptr -> node;
  next_alloc : ptr;
  path : string;
  is_loading_set : list string;
  log : list event
}.

Definition upd (h : ptr -> node) (p : ptr) (n : node) : ptr -> node :=
  fun q => if Nat.eqb q p then n else h q.

(** ** The monad *)

Definition M (A : Type) := world -> option (A * world).

Definition retM {A} (a : A) : M A := fun w => Some (a, w).
Definition bindM {A B} (m : M A) (f : A -> M B) : M B :=
  fun w => match m w with None => None | Some (a, w') => f a w' end.

Declare Scope autoload_scope.
Notation "x <- m ;; k" := (bindM m (fun x => k))
  (at level 100, m at next level, right associativity) : autoload_scope.
Notation "m ;;; k" := (bindM m (fun _ => k))
  (at level 100, right associativity) : autoload_scope.
Open Scope autoload_scope.

Definition gets {A} (f : world -> A) : M A := fun w => Some (f w, w).
Definition modify (f : world -> world) : M unit := fun w => Some (tt, f w).
Definition assertM (b : bool) : M unit :=
  fun w => if b then Some (tt, w) else None.

Definition with_heap (h : ptr -> node) (w : world) : world :=
  mkWorld (max_node_count w) (node_count w) (node_set w) h (next_alloc w)
    (path w) (is_loading_set w) (log w).
Definition with_node_set (s : gmap string ptr) (w : world) : world :=
  mkWorld (max_node_count w) (node_count w) s (heap w) (next_alloc w)
    (path w) (is_loading_set w) (log w).
Definition with_node_count (c : nat) (w : world) : world :=
  mkWorld (max_node_count w) c (node_set w) (heap w) (next_alloc w)
    (path w) (is_loading_set w) (log w).
Definition with_next_alloc (a : ptr) (w : world) : world :=
  mkWorld (max_node_count w) (node_count w) (node_set w) (heap w) a
    (path w) (is_loading_set w) (log w).
Definition with_path (s : string) (w : world) : world :=
  mkWorld (max_node_count w) (node_count w) (node_set w) (heap w)
    (next_alloc w) s (is_loading_set w) (log w).
Definition with_is_loading_set (l : list string) (w : world) : world :=
  mkWorld (max_node_count w) (node_count w) (node_set w) (heap w)
    (next_alloc w) (path w) l (log w).
Definition with_log (l : list event) (w : world) : world :=
  mkWorld (max_node_count w) (node_count w) (node_set w) (heap w)
    (next_alloc w) (path w) (is_loading_set w) l.

Definition emit (es : list event) : M unit :=
  modify (fun w => with_log (log w ++ es) w).

(** Field accesses through a pointer. *)
Definition rd_node (p : ptr) : M node := gets (fun w => heap w p).
Definition rd_prev (p : ptr) : M ptr := gets (fun w => prev (heap w p)).
Definition rd_next (p : ptr) : M ptr := gets (fun w => next (heap w p)).
Definition wr_node (p : ptr) (n : node) : M unit :=
  modify (fun w => with_heap (upd (heap w) p n) w).
(** [p->next = v] *)
Definition wr_next (p v : ptr) : M unit :=
  modify (fun w => with_heap (upd (heap w) p (set_next_field (heap w p) v)) w).
(** [p->prev = v] *)
Definition wr_prev (p v : ptr) : M unit :=
  modify (fun w => with_heap (upd (heap w) p (set_prev_field (heap w p) v)) w).

(** ** [lru_cache_impl_t] *)

Section LRU.

(** The virtual [node_was_evicted]; the effects it has outside the cache. *)
Variable node_was_evicted : node -> ptr -> list event.

(** [void lru_cache_impl_t::evict_node(lru_node_t *condemned_node)] *)
Definition evict_node (condemned_node : ptr) : M unit :=
  assertM (negb (Nat.eqb condemned_node mouth)) ;;;
  (* condemned_node->prev->next = condemned_node->next; *)
  a <- rd_prev condemned_node ;; b <- rd_next condemned_node ;;
  wr_next a b ;;;
  (* condemned_node->next->prev = condemned_node->prev; *)
  b' <- rd_next condemned_node ;; a' <- rd_prev condemned_node ;;
  wr_prev b' a' ;;;
  (* node_set.erase(condemned_node); node_count--; *)
  n <- rd_node condemned_node ;;
  modify (fun w => with_node_set (delete (key n) (node_set w)) w) ;;;
  modify (fun w => with_node_count (Nat.pred (node_count w)) w) ;;;
  (* this->node_was_evicted(condemned_node); *)
  n' <- rd_node condemned_node ;;
  emit (node_was_evicted n' condemned_node).

(** [void lru_cache_impl_t::evict_last_node(void)] *)
Definition evict_last_node : M unit :=
  p <- rd_prev mouth ;; evict_node p.

(** [bool lru_cache_impl_t::evict_node(const wcstring &key)] *)
Definition evict_node_key (k : string) : M bool :=
  s <- gets node_set ;;
  match s !! k with
  | None => retM false
  | Some p => evict_node p ;;; retM true
  end.

(** [void lru_cache_impl_t::promote_node(lru_node_t *node)] *)
Definition promote_node (p : ptr) : M unit :=
  assertM (negb (Nat.eqb p mouth)) ;;;
  (* node->prev->next = node->next; *)
  a <- rd_prev p ;; b <- rd_next p ;; wr_next a b ;;;
  (* node->next->prev = node->prev; *)
  b' <- rd_next p ;; a' <- rd_prev p ;; wr_prev b' a' ;;;
  (* node->next = mouth.next; *)
  m <- rd_next mouth ;; wr_next p m ;;;
  (* node->next->prev = node; *)
  x <- rd_next p ;; wr_prev x p ;;;
  (* node->prev = &mouth; *)
  wr_prev p mouth ;;;
  (* mouth.next = node; *)
  wr_next mouth p.

(** [while (node_count > max_node_count) evict_last_node();]
    Every iteration lowers [node_count] by one, so [node_count] iterations
    always suffice: the fuel is the count at loop entry. *)
Fixpoint evict_while_over (fuel : nat) : M unit :=
  match fuel with
  | O => retM tt
  | S f =>
      c <- gets node_count ;; m <- gets max_node_count ;;
      if Nat.ltb m c then evict_last_node ;;; evict_while_over f
      else retM tt
  end.

Definition evict_excess : M unit :=
  c <- gets node_count ;; evict_while_over c.

(** [bool lru_cache_impl_t::add_node_without_eviction(lru_node_t *node)] *)
Definition add_node_without_eviction (p : ptr) : M bool :=
  assertM (negb (Nat.eqb p mouth)) ;;;
  n <- rd_node p ;; s <- gets node_set ;;
  (* if (! node_set.insert(node).second) return false; *)
  match s !! key n with
  | Some _ => retM false
  | None =>
      modify (fun w => with_node_set (<[key n := p]> (node_set w)) w) ;;;
      (* node->next = mouth.next; node->next->prev = node;
         node->prev = &mouth; mouth.next = node; *)
      m <- rd_next mouth ;; wr_next p m ;;;
      x <- rd_next p ;; wr_prev x p ;;;
      wr_prev p mouth ;;;
      wr_next mouth p ;;;
      (* node_count++; *)
      modify (fun w => with_node_count (S (node_count w)) w) ;;;
      (* while (node_count > max_node_count) evict_last_node(); *)
      evict_excess ;;;
      retM true
  end.

(** [bool lru_cache_impl_t::add_node(lru_node_t *node)] *)
Definition add_node (p : ptr) : M bool :=
  ok <- add_node_without_eviction p ;;
  if negb ok then retM false
  else evict_excess ;;; retM true.

(** [lru_node_t *lru_cache_impl_t::get_node(const wcstring &key)] *)
Definition get_node (k : string) : M (option ptr) :=
  s <- gets node_set ;;
  match s !! k with
  | None => retM None
  | Some p => promote_node p ;;; retM (Some p)
  end.

(** [void lru_cache_impl_t::evict_all_nodes()] *)
Fixpoint evict_all_loop (fuel : nat) : M unit :=
  match fuel with
  | O => retM tt
  | S f =>
      c <- gets node_count ;;
      if Nat.ltb 0 c then evict_last_node ;;; evict_all_loop f else retM tt
  end.

Definition evict_all_nodes : M unit :=
  c <- gets node_count ;; evict_all_loop c.

End LRU.

(** The base class's [node_was_evicted] does nothing. *)
Definition lru_node_was_evicted (n : node) (p : ptr) : list event := [].

(** [lru_cache_impl_t(size_t size)]: an empty cache whose [mouth] is linked
    to itself. *)
Definition empty_node (k : string) : node :=
  mkNode k mouth mouth access_zero false false.

Definition init_world (size : nat) : world :=
  mkWorld size 0 ∅ (fun _ => empty_node ""%string) 2 ""%string [] [].

(** ** [autoload_t] *)

(** [static const int kAutoloadStalenessInterval = 1;] *)
Definition kAutoloadStalenessInterval : Z := 1.

(** [builtin_script_t]: a name and a script body. *)
Record builtin_script := mkBuiltin { bname : string; bdef : string }.

(** What [wstat] and [waccess] report for a path. *)
Inductive stat_result :=
  | StatFailed (errno : Z)                     (* wstat fails *)
  | StatOk (mtime : Z) (access_errno : option Z).  (* waccess fails iff Some *)

(** The collaborators [autoload_t] calls into, as seen by one call. *)
Record collaborators := mkCollab {
  env_path_value : string;                 (* env_get_string(env_var_name) *)
  tokenize_variable_array2 : string -> list string;
  builtin_scripts : list builtin_script;   (* builtin_scripts[0..count) *)
  filesystem : string -> stat_result;
  now : Z;                                 (* time(NULL) *)
  escape_string : string -> string;       (* escape_string(path, 1) *)
  signal_is_blocked : bool                 (* signal_is_blocked() *)
}.

(** [autoload_t::node_was_evicted]: unregister the command if it was loaded
    -- as written, [if (! node->is_loaded) command_removed(node->key)] --
    then [delete node]. *)
Definition autoload_node_was_evicted (n : node) (p : ptr) : list event :=
  (if negb (is_loaded n) then [CommandRemoved (key n)] else []) ++ [NodeDeleted p].

Section Autoload.

Variable env : collaborators.

(** [file_access_attempt_t access_file(const wcstring &path, int mode)] *)
Definition access_file (p : string) : M file_access_attempt :=
  emit [FileProbed p] ;;;
  retM (match filesystem env p with
        | StatFailed e => mkAccess 0 (now env) false false e
        | StatOk mt None => mkAccess mt (now env) true false 0
        | StatOk mt (Some e) => mkAccess mt (now env) false false e
        end).

(** Modelled from the spec: the constructor of [autoload_function_t]
    (declared in autoload.h, outside this file): a fresh entry with the
    given key, zeroed access attempt, neither loaded nor a placeholder, and
    [NULL] links. *)
Definition new_autoload_function (k : string) : M ptr :=
  p <- gets next_alloc ;;
  modify (with_next_alloc (S p)) ;;;
  wr_node p (mkNode k null null access_zero false false) ;;;
  retM p.

(** [is_loading(cmd)], [is_loading_set.insert(cmd)], [is_loading_set.erase(cmd)]
    on the [std::set<wcstring>]. *)
Definition set_mem (s : list string) (x : string) : bool := existsb (String.eqb x) s.
Definition set_insert (s : list string) (x : string) : list string :=
  if set_mem s x then s else x :: s.
Definition set_erase (s : list string) (x : string) : list string :=
  filter (fun y => negb (String.eqb y x)) s.

(** [script_name_precedes_script_name]: [wcscmp(name1, name2) < 0]. *)
Definition script_name_precedes_script_name (s1 s2 : builtin_script) : bool :=
  match String.compare (bname s1) (bname s2) with Lt => true | _ => false end.

(** [std::lower_bound(first, last, val, comp)] on an array, as an index. *)
Fixpoint lower_bound_loop (fuel : nat) (arr : list builtin_script)
    (val : builtin_script) (first len : nat) : nat :=
  match fuel with
  | O => first
  | S f =>
      if Nat.ltb 0 len then
        let half := Nat.div2 len in
        let middle := first + half in
        if script_name_precedes_script_name (nth middle arr val) val
        then lower_bound_loop f arr val (S middle) (len - half - 1)
        else lower_bound_loop f arr val first half
      else first
  end.

Definition lower_bound (arr : list builtin_script) (val : builtin_script) : nat :=
  lower_bound_loop (length arr) arr val 0 (length arr).

(** Lines 324-335: the binary search for a builtin script. *)
Definition matching_builtin_script (cmd : string) : option builtin_script :=
  let scripts := builtin_scripts env in
  if Nat.ltb 0 (length scripts) then
    let test_script := mkBuiltin cmd ""%string in
    let found := lower_bound scripts test_script in
    if negb (Nat.eqb found (length scripts)) &&
       (match String.compare (bname (nth found scripts test_script)) cmd with
        | Eq => true | _ => false end)
    then Some (nth found scripts test_script)
    else None
  else None.

(** Lines 295-309: whether the cached entry can answer the request. *)
Definition can_use_cached (really_load reload : bool) (func : option node) : bool :=
  let allow_stale_functions := negb reload in
  match func with
  | None => false
  | Some n =>
      if negb allow_stale_functions &&
         Z.ltb kAutoloadStalenessInterval (now env - last_checked (access n))
      then false
      else if really_load && negb (is_loaded n) then false
      else true
  end.

Definition rd_opt_node (func : option ptr) : M (option node) :=
  match func with
  | None => retM None
  | Some p => n <- rd_node p ;; retM (Some n)
  end.

(** Lines 378-385 and 407-415: insert a new entry, evicting only when
    really loading. *)
Definition insert_new (p : ptr) (really_load : bool) : M bool :=
  if really_load then add_node autoload_node_was_evicted p
  else add_node_without_eviction autoload_node_was_evicted p.

(** Lines 353-393: an accessible file was found at [fpath]. *)
Definition found_file_at (cmd fpath : string) (really_load : bool)
    (acc : file_access_attempt) : M (option string * bool) :=
  func <- get_node cmd ;;
  fnode <- rd_opt_node func ;;
  let need_to_load_function :=
    really_load &&
    (match fnode with
     | None => true
     | Some n => Z.eqb (mod_time (access n)) (mod_time acc) || negb (is_loaded n)
     end) in
  r <- (if need_to_load_function then
          let esc := escape_string env fpath in
          (match func, fnode with
           | Some p, Some n =>
               if is_loaded n then
                 emit [CommandRemoved cmd] ;;;
                 n1 <- rd_node p ;; wr_node p (set_placeholder_field n1 false)
               else retM tt
           | _, _ => retM tt
           end) ;;;
          retM (Some (". " ++ esc)%string, true)
        else retM (None, false)) ;;
  p <- (match func with
        | Some p => retM p
        | None => p <- new_autoload_function cmd ;; insert_new p really_load ;;; retM p
        end) ;;
  (if need_to_load_function then
     n2 <- rd_node p ;; wr_node p (set_loaded_field n2 true)
   else retM tt) ;;;
  n3 <- rd_node p ;; wr_node p (set_access_field n3 acc) ;;;
  retM r.

(** Lines 344-395: the search over the path list, first match wins.
    Returns [found_file], the script source if one was generated, and
    [reloaded]. *)
Fixpoint search_path (cmd : string) (really_load : bool) (dirs : list string)
    : M (bool * option string * bool) :=
  match dirs with
  | [] => retM (false, None, false)
  | d :: rest =>
      let p := (d ++ "/" ++ cmd ++ ".fish")%string in
      acc <- access_file p ;;
      if accessible acc then
        r <- found_file_at cmd p really_load acc ;;
        retM (true, fst r, snd r)
      else search_path cmd really_load rest
  end.

(** Lines 402-417: the placeholder (negative cache entry). *)
Definition insert_placeholder (cmd : string) (really_load : bool) : M unit :=
  func <- get_node cmd ;;
  p <- (match func with
        | Some p => retM p
        | None =>
            p <- new_autoload_function cmd ;;
            n <- rd_node p ;; wr_node p (set_placeholder_field n true) ;;;
            insert_new p really_load ;;; retM p
        end) ;;
  n <- rd_node p ;;
  let a := access n in
  wr_node p (set_access_field n
    (mkAccess (mod_time a) (now env) (accessible a) (stale a) (error a))).

(** [bool autoload_t::locate_file_and_maybe_load_it(cmd, really_load, reload, path_list)] *)
Definition locate_file_and_maybe_load_it (cmd : string) (really_load reload : bool)
    (path_list : list string) : M bool :=
  (* Try using a cached function. *)
  func <- get_node cmd ;;
  fnode <- rd_opt_node func ;;
  if can_use_cached really_load reload fnode then
    retM (match fnode with Some n => accessible (access n) | None => false end)
  else
  (* Look for built-in scripts via a binary search *)
  let '(has_script_source0, script_source0) :=
    match matching_builtin_script cmd with
    | Some b => (true, bdef b)
    | None => (false, ""%string)
    end in
  r <- (if negb has_script_source0 then
          (* Iterate over path searching for suitable completion files *)
          s <- search_path cmd really_load path_list ;;
          let '(found_file, src, reloaded) := s in
          let has_script_source := match src with Some _ => true | None => false end in
          (if negb found_file && negb has_script_source
           then insert_placeholder cmd really_load else retM tt) ;;;
          retM (found_file, has_script_source,
                match src with Some x => x | None => ""%string end, reloaded)
        else retM (false, true, script_source0, false)) ;;
  let '(found_file, has_script_source, script_source, reloaded) := r in
  (* If we have a script, either built-in or a file source, then run it *)
  (if really_load && has_script_source then emit [SubshellRun script_source]
   else retM tt) ;;;
  retM (if really_load then reloaded else found_file || has_script_source).

(** [int autoload_t::load(const wcstring &cmd, bool reload)] *)
Definition load (cmd : string) (reload : bool) : M Z :=
  (* CHECK_BLOCK( 0 ): the macro (from common.h) reports the call with
     [debug(0, ...)] and returns its argument when signals are blocked. *)
  if signal_is_blocked env then emit [BlockedCallWarning "load"] ;;; retM 0%Z else
  let path_var := env_path_value env in
  (* Do we know where to look? *)
  if String.eqb path_var ""%string then retM 0%Z else
  (* Check if the lookup path has changed. If so, drop all loaded files. *)
  old <- gets path ;;
  (if negb (String.eqb path_var old) then
     modify (with_path path_var) ;;; evict_all_nodes autoload_node_was_evicted
   else retM tt) ;;;
  (* Warn and fail on infinite recursion. *)
  loading <- gets is_loading_set ;;
  if set_mem loading cmd then emit [CircularWarning cmd] ;;; retM 1%Z else
  (* Mark that we're loading this *)
  modify (fun w => with_is_loading_set (set_insert (is_loading_set w) cmd) w) ;;;
  let path_list := tokenize_variable_array2 env path_var in
  res <- locate_file_and_maybe_load_it cmd true reload path_list ;;
  (* Clean up *)
  loading' <- gets is_loading_set ;;
  modify (with_is_loading_set (set_erase loading' cmd)) ;;;
  assertM (set_mem loading' cmd) ;;;
  retM (if res then 1%Z else 0%Z).

(** [bool autoload_t::can_load(const wcstring &cmd, const env_vars &vars)];
    [path_var_ptr] is what [vars.get(env_var_name)] returns. *)
Definition can_load (cmd : string) (path_var_ptr : option string) : M bool :=
  match path_var_ptr with
  | None => retM false
  | Some ""%string => retM false
  | Some path_var =>
      locate_file_and_maybe_load_it cmd false false
        (tokenize_variable_array2 env path_var)
  end.

End Autoload.

(** [int autoload_t::unload(const wcstring &cmd)] *)
Definition unload (cmd : string) : M bool :=
  evict_node_key autoload_node_was_evicted cmd.

(** [void autoload_t::unload_all(void)] *)
Definition unload_all : M unit :=
  evict_all_nodes autoload_node_was_evicted.

(** ** Shape of the recency list *)

(** [linked h x r]: starting at node [x], following [next] visits the nodes
    of [r] in order, and each [prev] points back. *)
Fixpoint linked (h : ptr -> node) (x : ptr) (r : list ptr) : Prop :=
  match r with
  | [] => True
  | y :: r' => next (h x) = y /\ prev (h y) = x /\ linked h y r'
  end.

(** The circular list: [mouth], the entries [l] from most to least recently
    used, and back to [mouth]. *)
Definition ring (h : ptr -> node) (l : list ptr) : Prop :=
  linked h mouth (l ++ [mouth]).

(** The fields other than the links. *)
Definition payload (n : node) :=
  (key n, access n, is_loaded n, is_placeholder n).

(** The representation invariant of [lru_cache_impl_t], with [l] the
    entries from most to least recently used. *)
Record lru_inv (w : world) (l : list ptr) : Prop := {
  inv_ring : ring (heap w) l;
  inv_nodup : NoDup (mouth :: l);
  inv_index : forall k p, node_set w !! k = Some p <-> p ∈ l /\ key (heap w p) = k;
  inv_count : node_count w = length l;
  inv_size : size (node_set w) = length l;
  inv_alloc : forall p, p ∈ mouth :: l -> p < next_alloc w
}.

(** [node_count <= max_node_count] *)
Definition within_capacity (w : world) : Prop := node_count w <= max_node_count w.

(** The heap after unlinking [x] (lines 52-53 and 87-88). *)
Definition unlink_heap (h : ptr -> node) (x : ptr) : ptr -> node :=
  let a := prev (h x) in
  let b := next (h x) in
  let h1 := upd h a (set_next_field (h a) b) in
  let b' := next (h1 x) in
  let a' := prev (h1 x) in
  upd h1 b' (set_prev_field (h1 b') a').

(** The heap after linking [p] right after [mouth] (lines 91-94 and
    118-121). *)
Definition link_front_heap (h : ptr -> node) (p : ptr) : ptr -> node :=
  let m := next (h mouth) in
  let h1 := upd h p (set_next_field (h p) m) in
  let x := next (h1 p) in
  let h2 := upd h1 x (set_prev_field (h1 x) p) in
  let h3 := upd h2 p (set_prev_field (h2 p) mouth) in
  upd h3 mouth (set_next_field (h3 mouth) p).

Lemma last_cons_default {A} (z : A) r d1 d2 :
  List.last (z :: r) d1 = List.last (z :: r) d2.
Proof.
  revert z. induction r as [|y r IH]; intros z; [done|].
  change (List.last (y :: r) d1 = List.last (y :: r) d2). apply IH.
Qed.

Lemma linked_app h x r1 r2 :
  linked h x (r1 ++ r2) <-> linked h x r1 /\ linked h (List.last r1 x) r2.
Proof.
  revert x. induction r1 as [|y r1 IH]; intros x; cbn [app linked].
  - simpl. tauto.
  - rewrite IH. destruct r1 as [|z r1]; [simpl; tauto|].
    change (List.last (y :: z :: r1) x) with (List.last (z :: r1) x).
    rewrite (last_cons_default z r1 y x). cbn [linked]. tauto.
Qed.

Lemma linked_ext h h' x r :
  (forall p, p ∈ removelast (x :: r) -> next (h' p) = next (h p)) ->
  (forall p, p ∈ r -> prev (h' p) = prev (h p)) ->
  linked h x r -> linked h' x r.
Proof.
  revert x. induction r as [|y r IH]; intros x Hn Hp Hl; simpl in *; [done|].
  destruct Hl as (H1 & H2 & H3). split; [|split].
  - rewrite Hn; [done|]. destruct r; set_solver.
  - rewrite Hp; [done|set_solver].
  - apply IH; [|set_solver|done].
    intros p Hin. apply Hn. destruct r; simpl in *; set_solver.
Qed.

Lemma upd_eq h p n : upd h p n p = n.
Proof. unfold upd. by rewrite Nat.eqb_refl. Qed.

Lemma upd_ne h p q n : q <> p -> upd h p n q = h q.
Proof. unfold upd. intros H. by rewrite (proj2 (Nat.eqb_neq q p) H). Qed.

Lemma upd_case h p n q : upd h p n q = if decide (q = p) then n else h q.
Proof. unfold upd. destruct (decide (q = p)) as [->|Hne]; [by rewrite Nat.eqb_refl|].
  by rewrite (proj2 (Nat.eqb_neq q p) Hne). Qed.

Lemma removelast_snoc {A} (l : list A) (a : A) : removelast (l ++ [a]) = l.
Proof. by rewrite removelast_last. Qed.

Lemma last_snoc {A} (l : list A) (a d : A) : List.last (l ++ [a]) d = a.
Proof. by rewrite last_last. Qed.

Lemma unlink_heap_next h x q :
  x <> prev (h x) ->
  next (unlink_heap h x q) = if decide (q = prev (h x)) then next (h x) else next (h q).
Proof.
  intros Hx. unfold unlink_heap. rewrite (upd_ne h (prev (h x)) x _ Hx).
  rewrite !upd_case. repeat case_decide; subst; simpl; try done; try congruence.
  all: try (rewrite upd_ne; [done|congruence]).
  all: try (rewrite upd_eq; done).
Qed.

Lemma unlink_heap_prev h x q :
  x <> prev (h x) ->
  prev (unlink_heap h x q) = if decide (q = next (h x)) then prev (h x) else prev (h q).
Proof.
  intros Hx. unfold unlink_heap. rewrite (upd_ne h (prev (h x)) x _ Hx).
  rewrite !upd_case. repeat case_decide; subst; simpl; done.
Qed.

Lemma payload_upd h p n q :
  payload n = payload (h p) -> payload (upd h p n q) = payload (h q).
Proof. intros H. rewrite upd_case. case_decide; subst; done. Qed.

Lemma unlink_heap_payload h x q :
  payload (unlink_heap h x q) = payload (h q).
Proof.
  unfold unlink_heap. rewrite payload_upd by reflexivity.
  rewrite payload_upd by reflexivity. done.
Qed.

Lemma unlink_heap_self h x :
  x <> prev (h x) -> x <> next (h x) -> unlink_heap h x x = h x.
Proof.
  intros Ha Hc. unfold unlink_heap. rewrite (upd_ne h (prev (h x)) x _ Ha).
  rewrite upd_ne; [by rewrite upd_ne|done].
Qed.

Lemma linked_unlink h s r1 x c r2 :
  let a := List.last r1 s in
  x <> a ->
  a ∉ removelast (s :: r1) ->
  (forall p, p ∈ r1 -> p <> c) ->
  a ∉ removelast (c :: r2) ->
  c ∉ r2 ->
  linked h s (r1 ++ x :: c :: r2) ->
  linked (unlink_heap h x) s (r1 ++ c :: r2).
Proof.
  intros a Hxa N1 N2 N3 N4 Hl.
  apply linked_app in Hl as [Hl1 Hl2]. fold a in Hl2.
  destruct Hl2 as (Ha & Hx & Hx2 & Hc & Hl2).
  assert (Hxa' : x <> prev (h x)) by congruence.
  apply linked_app. fold a. split; [|split; [|split]].
  - eapply linked_ext; [| |exact Hl1].
    + intros p Hp. rewrite unlink_heap_next by done.
      case_decide; [|done]. subst. congruence.
    + intros p Hp. rewrite unlink_heap_prev by done.
      case_decide; [|done]. exfalso. apply (N2 p Hp). congruence.
  - rewrite unlink_heap_next by done. rewrite decide_True by congruence. done.
  - rewrite unlink_heap_prev by done. rewrite decide_True by congruence. congruence.
  - eapply linked_ext; [| |exact Hl2].
    + intros p Hp. rewrite unlink_heap_next by done.
      case_decide; [|done]. subst. congruence.
    + intros p Hp. rewrite unlink_heap_prev by done.
      case_decide; [|done]. subst. done.
Qed.

Lemma last_elem_of {A} (r : list A) (s : A) : List.last r s ∈ s :: r.
Proof.
  revert s. induction r as [|y r IH]; intros s; [set_solver|].
  destruct r as [|z r]; [set_solver|].
  change (List.last (y :: z :: r) s) with (List.last (z :: r) s).
  rewrite (last_cons_default z r s y). specialize (IH y). set_solver.
Qed.

Lemma nodup_last_removelast {A} (r : list A) (s : A) :
  NoDup (s :: r) -> List.last r s ∉ removelast (s :: r).
Proof.
  revert s. induction r as [|y r IH]; intros s Hnd; [set_solver|].
  change (removelast (s :: y :: r)) with (s :: removelast (y :: r)).
  destruct r as [|z r].
  - simpl. apply NoDup_cons in Hnd. set_solver.
  - change (List.last (y :: z :: r) s) with (List.last (z :: r) s).
    rewrite (last_cons_default z r s y).
    apply NoDup_cons in Hnd as [Hs Hnd].
    pose proof (IH y Hnd) as H1. pose proof (last_elem_of (z :: r) y) as H2.
    intros Hin. apply elem_of_cons in Hin as [Heq|Hin]; [|exact (H1 Hin)].
    rewrite Heq in H2. by apply Hs.
Qed.

(** Unlinking an entry from the ring. *)
Lemma ring_unlink h l1 x l2 :
  NoDup (mouth :: l1 ++ x :: l2) ->
  ring h (l1 ++ x :: l2) ->
  ring (unlink_heap h x) (l1 ++ l2) /\ x <> prev (h x) /\ x <> next (h x).
Proof.
  intros Hnd Hr. unfold ring in *.
  assert (Hnd1 : NoDup (mouth :: l1)).
  { change (mouth :: l1 ++ x :: l2) with ((mouth :: l1) ++ x :: l2) in Hnd.
    apply NoDup_app in Hnd as (Hd & _ & _). done. }
  assert (Hdisj : forall q, q ∈ mouth :: l1 -> q ∉ x :: l2).
  { intros q. change (mouth :: l1 ++ x :: l2) with ((mouth :: l1) ++ x :: l2) in Hnd.
    apply NoDup_app in Hnd as (_ & Hd & _). apply Hd. }
  assert (Hnd2 : NoDup (x :: l2)).
  { change (mouth :: l1 ++ x :: l2) with ((mouth :: l1) ++ x :: l2) in Hnd.
    apply NoDup_app in Hnd as (_ & _ & Hd). done. }
  assert (Hnd3 : NoDup (l2 ++ [mouth])).
  { apply NoDup_app. apply NoDup_cons in Hnd2 as [_ Hl2]. split; [done|split].
    - intros q Hq Hq'. apply list_elem_of_singleton in Hq'. subst.
      apply (Hdisj mouth); set_solver.
    - apply NoDup_singleton. }
  set (a := List.last l1 mouth).
  assert (Ha : a ∈ mouth :: l1) by apply last_elem_of.
  destruct (l2 ++ [mouth]) as [|c r2] eqn:Hl2; [destruct l2; discriminate|].
  assert (Hc : c ∈ l2 ++ [mouth]) by (rewrite Hl2; set_solver).
  assert (Hr2 : forall q, q ∈ r2 -> q ∈ l2 ++ [mouth]) by (rewrite Hl2; set_solver).
  assert (Hrm : removelast (c :: r2) = l2) by (rewrite <- Hl2; apply removelast_snoc).
  rewrite <- app_assoc in Hr. simpl in Hr. rewrite Hl2 in Hr.
  pose proof Hr as Hr'. apply linked_app in Hr' as [_ Hr']. fold a in Hr'.
  destruct Hr' as (_ & Hpx & Hnx & _).
  assert (Hxa : x <> a).
  { intros ->. apply (Hdisj a Ha). set_solver. }
  assert (Hxc : x <> c).
  { intros ->. apply NoDup_cons in Hnd2 as [Hx _]. apply elem_of_app in Hc as [Hc|Hc]; [done|].
    apply list_elem_of_singleton in Hc. subst. apply (Hdisj mouth); set_solver. }
  split; [|split; congruence].
  rewrite <- app_assoc. rewrite Hl2.
  apply linked_unlink; [done|apply nodup_last_removelast; done| | | |done].
  - intros q Hq ->. apply elem_of_app in Hc as [Hc|Hc].
    + apply (Hdisj c); set_solver.
    + apply list_elem_of_singleton in Hc. subst. apply NoDup_cons in Hnd1 as [H _]. done.
  - rewrite Hrm. intros Hin. apply (Hdisj a Ha). set_solver.
  - apply NoDup_cons in Hnd3 as [H _]. done.
Qed.

Lemma link_front_heap_next h p q :
  p <> mouth ->
  next (link_front_heap h p q) =
    if decide (q = mouth) then p else if decide (q = p) then next (h mouth) else next (h q).
Proof.
  intros Hp. unfold link_front_heap. rewrite !upd_case.
  repeat case_decide; subst; simpl; try done; congruence.
Qed.

Lemma link_front_heap_prev h p q :
  p <> mouth ->
  prev (link_front_heap h p q) =
    if decide (q = p) then mouth else if decide (q = next (h mouth)) then p else prev (h q).
Proof.
  intros Hp. unfold link_front_heap. rewrite !upd_case.
  repeat case_decide; subst; simpl; try done; congruence.
Qed.

Lemma link_front_heap_payload h p q :
  payload (link_front_heap h p q) = payload (h q).
Proof.
  unfold link_front_heap.
  do 4 (rewrite payload_upd by reflexivity). done.
Qed.

(** Linking an entry right after [mouth]. *)
Lemma ring_link_front h l p :
  NoDup (mouth :: l) -> p ∉ mouth :: l ->
  ring h l -> ring (link_front_heap h p) (p :: l).
Proof.
  intros Hnd Hp Hr. unfold ring in *.
  assert (Hpm : p <> mouth) by set_solver.
  assert (Hnd2 : NoDup (l ++ [mouth])).
  { apply NoDup_app. apply NoDup_cons in Hnd as [Hm Hl]. split; [done|split].
    - intros q Hq Hq'. apply list_elem_of_singleton in Hq'. by subst.
    - apply NoDup_singleton. }
  destruct (l ++ [mouth]) as [|m r] eqn:Hl; [destruct l; discriminate|].
  assert (Hmem : forall q, q ∈ m :: r -> q ∈ l ++ [mouth]) by (rewrite Hl; done).
  assert (Hrm : removelast (m :: r) = l) by (rewrite <- Hl; apply removelast_snoc).
  simpl in Hr. destruct Hr as (Hm1 & Hm2 & Hr).
  simpl. rewrite Hl. cbn [linked].
  rewrite !link_front_heap_next, !link_front_heap_prev by done.
  assert (Hmp : m <> p).
  { intros ->. apply Hp. pose proof (Hmem p ltac:(set_solver)) as H. set_solver. }
  split; [|split; [|split; [|split]]];
    [repeat case_decide; congruence..|].
  eapply linked_ext; [| |exact Hr].
  - intros q Hq. rewrite Hrm in Hq. rewrite link_front_heap_next by done.
    rewrite decide_False by (intros ->; apply NoDup_cons in Hnd; set_solver).
    rewrite decide_False by (intros ->; set_solver). done.
  - intros q Hq. rewrite link_front_heap_prev by done.
    rewrite decide_False by (intros ->; apply Hp; pose proof (Hmem p ltac:(set_solver)); set_solver).
    rewrite decide_False by (intros Heq; rewrite Hm1 in Heq; subst;
                             apply NoDup_cons in Hnd2 as [H _]; done).
    done.
Qed.

(** ** Specifications of the cache operations *)

(** What an operation leaves alone: the capacity, the path, the in-progress
    set, and the non-link fields of every node allocated before it. *)
Definition cache_frame (w w' : world) : Prop :=
  max_node_count w' = max_node_count w /\
  next_alloc w <= next_alloc w' /\
  path w' = path w /\
  is_loading_set w' = is_loading_set w /\
  (forall q, q < next_alloc w -> payload (heap w' q) = payload (heap w q)).

Lemma cache_frame_refl w : cache_frame w w.
Proof. repeat split; done. Qed.

Lemma cache_frame_trans w1 w2 w3 :
  cache_frame w1 w2 -> cache_frame w2 w3 -> cache_frame w1 w3.
Proof.
  intros (H1 & H2 & H3 & H4 & H5) (G1 & G2 & G3 & G4 & G5).
  repeat split; try congruence; try lia.
  intros q Hq. rewrite G5 by lia. by apply H5.
Qed.

(** The events of evicting the entries [xs], in order. *)
Definition evict_events (hook : node -> ptr -> list event) (h : ptr -> node)
    (xs : list ptr) : list event :=
  flat_map (fun x => hook (h x) x) xs.

Section CacheSpec.

Variable hook : node -> ptr -> list event.
(** The hook looks at the entry, not at its links. *)
Hypothesis hook_payload : forall n1 n2 p, payload n1 = payload n2 -> hook n1 p = hook n2 p.

Definition evict_world (w : world) (x : ptr) : world :=
  let h2 := unlink_heap (heap w) x in
  with_log (log w ++ hook (h2 x) x)
    (with_node_count (Nat.pred (node_count w))
      (with_node_set (delete (key (h2 x)) (node_set w)) (with_heap h2 w))).

Lemma evict_node_eq w x :
  x <> mouth -> evict_node hook x w = Some (tt, evict_world w x).
Proof.
  intros Hx. unfold evict_node, assertM.
  rewrite (proj2 (Nat.eqb_neq x mouth) Hx). reflexivity.
Qed.

Lemma elem_of_ring_neq_mouth l1 x l2 :
  NoDup (mouth :: l1 ++ x :: l2) -> x <> mouth.
Proof. intros Hnd ->. apply NoDup_cons in Hnd as [H _]. set_solver. Qed.

Lemma evict_node_spec w l1 x l2 :
  lru_inv w (l1 ++ x :: l2) ->
  evict_node hook x w = Some (tt, evict_world w x) /\
  lru_inv (evict_world w x) (l1 ++ l2) /\
  cache_frame w (evict_world w x) /\
  node_set (evict_world w x) = delete (key (heap w x)) (node_set w) /\
  log (evict_world w x) = log w ++ hook (heap w x) x.
Proof.
  intros Hinv. pose proof (inv_nodup _ _ Hinv) as Hnd.
  pose proof (elem_of_ring_neq_mouth _ _ _ Hnd) as Hxm.
  destruct (ring_unlink (heap w) l1 x l2 Hnd (inv_ring _ _ Hinv)) as (Hr & Ha & Hc).
  pose proof (unlink_heap_self (heap w) x Ha Hc) as Hself.
  assert (Hkx : node_set w !! key (heap w x) = Some x).
  { apply (inv_index _ _ Hinv). set_solver. }
  assert (Hnd' : NoDup (mouth :: l1 ++ l2)).
  { change (mouth :: l1 ++ x :: l2) with ((mouth :: l1) ++ x :: l2) in Hnd.
    change (mouth :: l1 ++ l2) with ((mouth :: l1) ++ l2).
    apply NoDup_app in Hnd as (N1 & N2 & N3). apply NoDup_cons in N3 as [_ N3].
    apply NoDup_app. split; [done|split; [|done]]. set_solver. }
  assert (Hxn : x ∉ l1 ++ l2).
  { change (mouth :: l1 ++ x :: l2) with ((mouth :: l1) ++ x :: l2) in Hnd.
    apply NoDup_app in Hnd as (N1 & N2 & N3). apply NoDup_cons in N3 as [N3 _].
    intros Hin. apply elem_of_app in Hin as [Hin|Hin]; [|done].
    apply (N2 x); set_solver. }
  split; [by apply evict_node_eq|].
  unfold evict_world. rewrite Hself. split; [|split; [|split]].
  - constructor; simpl.
    + done.
    + done.
    + intros k p. rewrite lookup_delete_Some.
      assert (Hkp : key (unlink_heap (heap w) x p) = key (heap w p)).
      { pose proof (unlink_heap_payload (heap w) x p) as Hp. unfold payload in Hp.
        congruence. }
      rewrite Hkp. rewrite (inv_index _ _ Hinv). split.
      * intros (Hne & Hin & Hk). split; [|done].
        apply elem_of_app in Hin as [Hin|Hin]; [set_solver|].
        apply elem_of_cons in Hin as [->|Hin]; [congruence|set_solver].
      * intros (Hin & Hk). split; [|split; [set_solver|done]].
        intros Heq. subst k.
        assert (Hp : node_set w !! key (heap w p) = Some p).
        { apply (inv_index _ _ Hinv). set_solver. }
        rewrite <- Heq, Hkx in Hp. injection Hp as ->. done.
    + rewrite (inv_count _ _ Hinv). rewrite !length_app. simpl. lia.
    + rewrite map_size_delete_Some by (eexists; exact Hkx).
      rewrite (inv_size _ _ Hinv). rewrite !length_app. simpl. lia.
    + intros p Hp. apply (inv_alloc _ _ Hinv). set_solver.
  - repeat split; simpl; try done.
    intros q _. apply unlink_heap_payload.
  - done.
  - simpl. done.
Qed.

Lemma ring_prev_mouth h l : ring h l -> prev (h mouth) = List.last l mouth.
Proof.
  unfold ring. intros Hr. apply linked_app in Hr as [_ Hr]. simpl in Hr. tauto.
Qed.

Lemma evict_last_node_eq w :
  evict_last_node hook w = evict_node hook (prev (heap w mouth)) w.
Proof. reflexivity. Qed.

Lemma evict_events_app h xs ys :
  evict_events hook h (xs ++ ys) = evict_events hook h xs ++ evict_events hook h ys.
Proof. unfold evict_events. apply flat_map_app. Qed.

Lemma evict_events_frame h h' xs :
  (forall y, y ∈ xs -> payload (h' y) = payload (h y)) ->
  evict_events hook h' xs = evict_events hook h xs.
Proof.
  induction xs as [|y xs IH]; intros Hp; [done|]. simpl.
  rewrite (hook_payload (h' y) (h y)) by (apply Hp; set_solver).
  f_equal. apply IH. intros z Hz. apply Hp. set_solver.
Qed.

Lemma elem_of_rev_iff (y : ptr) l : y ∈ rev l <-> y ∈ l.
Proof. rewrite !list_elem_of_In. symmetry. apply in_rev. Qed.

Lemma inv_elem_alloc w l y : lru_inv w l -> y ∈ l -> y < next_alloc w.
Proof. intros Hinv Hy. apply (inv_alloc _ _ Hinv). set_solver. Qed.

Lemma bind_Some {A B} (m : M A) (k : A -> M B) w a w1 :
  m w = Some (a, w1) -> bindM m k w = k a w1.
Proof. intros H. unfold bindM. by rewrite H. Qed.

Lemma evict_while_over_S f w :
  evict_while_over hook (S f) w =
  if Nat.ltb (max_node_count w) (node_count w)
  then bindM (evict_last_node hook) (fun _ => evict_while_over hook f) w
  else Some (tt, w).
Proof.
  change (evict_while_over hook (S f) w) with
    ((if Nat.ltb (max_node_count w) (node_count w)
      then bindM (evict_last_node hook) (fun _ => evict_while_over hook f)
      else retM tt) w).
  destruct (Nat.ltb _ _); reflexivity.
Qed.

Lemma evict_all_loop_S f w :
  evict_all_loop hook (S f) w =
  if Nat.ltb 0 (node_count w)
  then bindM (evict_last_node hook) (fun _ => evict_all_loop hook f) w
  else Some (tt, w).
Proof.
  change (evict_all_loop hook (S f) w) with
    ((if Nat.ltb 0 (node_count w)
      then bindM (evict_last_node hook) (fun _ => evict_all_loop hook f)
      else retM tt) w).
  destruct (Nat.ltb _ _); reflexivity.
Qed.

Lemma evict_while_over_spec fuel w l :
  lru_inv w l -> length l - max_node_count w <= fuel ->
  exists w', evict_while_over hook fuel w = Some (tt, w') /\
    lru_inv w' (take (max_node_count w) l) /\ cache_frame w w' /\
    log w' = log w ++ evict_events hook (heap w) (rev (drop (max_node_count w) l)).
Proof.
  revert w l. induction fuel as [|f IH]; intros w l Hinv Hf.
  - exists w. rewrite take_ge, drop_ge by lia. simpl.
    split; [done|split; [done|split; [apply cache_frame_refl|by rewrite app_nil_r]]].
  - rewrite evict_while_over_S. destruct (Nat.ltb (max_node_count w) (node_count w)) eqn:Hlt.
    + apply Nat.ltb_lt in Hlt. rewrite (inv_count _ _ Hinv) in Hlt.
      destruct l as [|y l0] using rev_ind; [simpl in Hlt; lia|]. clear IHl0.
      rename y into x.
      assert (Hinv' : lru_inv w (l0 ++ x :: [])) by done.
      destruct (evict_node_spec w l0 x [] Hinv') as (Hev & Hinv1 & Hfr1 & _ & Hlog1).
      rewrite app_nil_r in Hinv1.
      pose proof (ring_prev_mouth _ _ (inv_ring _ _ Hinv)) as Hpm.
      rewrite last_snoc in Hpm.
      rewrite (bind_Some _ _ _ tt (evict_world w x)) by (by rewrite evict_last_node_eq, Hpm).
      rewrite length_app in Hlt. simpl in Hlt.
      destruct Hfr1 as (Hm1 & Ha1 & Hp1 & Hl1 & Hpl1) eqn:Hfr1'.
      destruct (IH (evict_world w x) l0 Hinv1) as (w2 & Hrun & Hinv2 & Hfr2 & Hlog2).
      { rewrite Hm1. rewrite length_app in Hf. simpl in Hf. lia. }
      exists w2. rewrite Hm1 in Hinv2, Hlog2. split; [done|split; [|split]].
      * rewrite take_app_le by lia. done.
      * eapply cache_frame_trans; [exact Hfr1|exact Hfr2].
      * rewrite Hlog2, Hlog1. rewrite drop_app_le by lia. rewrite rev_app_distr.
        simpl. rewrite <- app_assoc. f_equal. f_equal.
        apply evict_events_frame. intros y Hy. apply Hpl1.
        apply (inv_elem_alloc w (l0 ++ [x])); [done|].
        rewrite !elem_of_rev_iff in Hy. pose proof (subseteq_drop (max_node_count w) l0) as Hs.
        apply elem_of_app. left. by apply Hs.
    + apply Nat.ltb_ge in Hlt. rewrite (inv_count _ _ Hinv) in Hlt.
      exists w. rewrite take_ge, drop_ge by lia. simpl.
      split; [done|split; [done|split; [apply cache_frame_refl|by rewrite app_nil_r]]].
Qed.

Lemma evict_excess_spec w l :
  lru_inv w l ->
  exists w', evict_excess hook w = Some (tt, w') /\
    lru_inv w' (take (max_node_count w) l) /\ cache_frame w w' /\
    log w' = log w ++ evict_events hook (heap w) (rev (drop (max_node_count w) l)).
Proof.
  intros Hinv. unfold evict_excess. simpl. apply evict_while_over_spec; [done|].
  rewrite (inv_count _ _ Hinv). lia.
Qed.

Lemma evict_all_loop_spec fuel w l :
  lru_inv w l -> length l <= fuel ->
  exists w', evict_all_loop hook fuel w = Some (tt, w') /\
    lru_inv w' [] /\ cache_frame w w' /\
    log w' = log w ++ evict_events hook (heap w) (rev l).
Proof.
  revert w l. induction fuel as [|f IH]; intros w l Hinv Hf.
  - destruct l; [|simpl in Hf; lia]. exists w. simpl.
    split; [done|split; [done|split; [apply cache_frame_refl|by rewrite app_nil_r]]].
  - rewrite evict_all_loop_S. destruct (Nat.ltb 0 (node_count w)) eqn:Hlt.
    + apply Nat.ltb_lt in Hlt. rewrite (inv_count _ _ Hinv) in Hlt.
      destruct l as [|y l0] using rev_ind; [simpl in Hlt; lia|]. clear IHl0.
      rename y into x.
      assert (Hinv' : lru_inv w (l0 ++ x :: [])) by done.
      destruct (evict_node_spec w l0 x [] Hinv') as (Hev & Hinv1 & Hfr1 & _ & Hlog1).
      rewrite app_nil_r in Hinv1.
      pose proof (ring_prev_mouth _ _ (inv_ring _ _ Hinv)) as Hpm.
      rewrite last_snoc in Hpm.
      rewrite (bind_Some _ _ _ tt (evict_world w x)) by (by rewrite evict_last_node_eq, Hpm).
      destruct Hfr1 as (Hm1 & Ha1 & Hp1 & Hl1 & Hpl1) eqn:Hfr1'.
      destruct (IH (evict_world w x) l0 Hinv1) as (w2 & Hrun & Hinv2 & Hfr2 & Hlog2).
      { rewrite length_app in Hf. simpl in Hf. lia. }
      exists w2. split; [done|split; [done|split]].
      * eapply cache_frame_trans; [exact Hfr1|exact Hfr2].
      * rewrite Hlog2, Hlog1. rewrite rev_app_distr.
        simpl. rewrite <- app_assoc. f_equal. f_equal.
        apply evict_events_frame. intros y Hy. apply Hpl1.
        apply (inv_elem_alloc w (l0 ++ [x])); [done|].
        rewrite !elem_of_rev_iff in Hy. set_solver.
    + apply Nat.ltb_ge in Hlt. rewrite (inv_count _ _ Hinv) in Hlt.
      destruct l; [|simpl in Hlt; lia]. exists w. simpl.
      split; [done|split; [done|split; [apply cache_frame_refl|by rewrite app_nil_r]]].
Qed.

Lemma evict_all_nodes_spec w l :
  lru_inv w l ->
  exists w', evict_all_nodes hook w = Some (tt, w') /\
    lru_inv w' [] /\ cache_frame w w' /\
    log w' = log w ++ evict_events hook (heap w) (rev l).
Proof.
  intros Hinv. unfold evict_all_nodes. simpl. apply evict_all_loop_spec; [done|].
  rewrite (inv_count _ _ Hinv). lia.
Qed.

Lemma promote_node_eq w p :
  p <> mouth ->
  promote_node p w = Some (tt, with_heap (link_front_heap (unlink_heap (heap w) p) p) w).
Proof.
  intros Hp. unfold promote_node, assertM.
  rewrite (proj2 (Nat.eqb_neq p mouth) Hp). reflexivity.
Qed.

Lemma get_node_None w k :
  node_set w !! k = None -> get_node k w = Some (None, w).
Proof. intros H. unfold get_node, bindM, gets. rewrite H. reflexivity. Qed.

Lemma get_node_spec w l k p :
  lru_inv w l -> node_set w !! k = Some p ->
  exists l1 l2, l = l1 ++ p :: l2 /\
    get_node k w = Some (Some p, with_heap (link_front_heap (unlink_heap (heap w) p) p) w) /\
    lru_inv (with_heap (link_front_heap (unlink_heap (heap w) p) p) w) (p :: l1 ++ l2) /\
    (forall q, payload (link_front_heap (unlink_heap (heap w) p) p q) = payload (heap w q)).
Proof.
  intros Hinv Hk.
  pose proof (proj1 (inv_index _ _ Hinv k p) Hk) as [Hin Hkey].
  apply list_elem_of_split in Hin as (l1 & l2 & ->).
  pose proof (inv_nodup _ _ Hinv) as Hnd.
  pose proof (elem_of_ring_neq_mouth _ _ _ Hnd) as Hpm.
  destruct (ring_unlink (heap w) l1 p l2 Hnd (inv_ring _ _ Hinv)) as (Hr & Ha & Hc).
  assert (Hnd' : NoDup (mouth :: l1 ++ l2) /\ p ∉ mouth :: l1 ++ l2).
  { change (mouth :: l1 ++ p :: l2) with ((mouth :: l1) ++ p :: l2) in Hnd.
    apply NoDup_app in Hnd as (N1 & N2 & N3). apply NoDup_cons in N3 as [N3 N4].
    split.
    - change (mouth :: l1 ++ l2) with ((mouth :: l1) ++ l2).
      apply NoDup_app. split; [done|split; [|done]]. set_solver.
    - intros Hin. change (mouth :: l1 ++ l2) with ((mouth :: l1) ++ l2) in Hin.
      apply elem_of_app in Hin as [Hin|Hin]; [|done]. apply (N2 p); set_solver. }
  destruct Hnd' as [Hnd1 Hpn].
  assert (Hpay : forall q, payload (link_front_heap (unlink_heap (heap w) p) p q) = payload (heap w q)).
  { intros q. rewrite link_front_heap_payload. apply unlink_heap_payload. }
  exists l1, l2. split; [done|split; [|split; [|done]]].
  - unfold get_node, bindM, gets. rewrite Hk. rewrite promote_node_eq by done. reflexivity.
  - constructor; simpl.
    + apply ring_link_front; done.
    + apply NoDup_cons in Hnd1 as [Hm Hnd1]. constructor; [set_solver|].
      constructor; [set_solver|done].
    + intros k' q. rewrite (inv_index _ _ Hinv).
      assert (Hkq : key (link_front_heap (unlink_heap (heap w) p) p q) = key (heap w q)).
      { pose proof (Hpay q) as H. unfold payload in H. congruence. }
      rewrite Hkq. set_solver.
    + rewrite (inv_count _ _ Hinv). rewrite !length_app. simpl. lia.
    + rewrite (inv_size _ _ Hinv). rewrite !length_app. simpl. lia.
    + intros q Hq. apply (inv_alloc _ _ Hinv). set_solver.
Qed.

(** [new autoload_function_t(k)] *)
Definition alloc_world (w : world) (k : string) : world :=
  with_heap (upd (heap w) (next_alloc w) (mkNode k null null access_zero false false))
    (with_next_alloc (S (next_alloc w)) w).

Lemma new_autoload_function_eq w k :
  new_autoload_function k w = Some (next_alloc w, alloc_world w k).
Proof. reflexivity. Qed.

Lemma alloc_spec w l k :
  lru_inv w l ->
  lru_inv (alloc_world w k) l /\ (next_alloc w ∉ mouth :: l) /\
  cache_frame w (alloc_world w k) /\
  node_set (alloc_world w k) = node_set w /\ log (alloc_world w k) = log w /\
  node_count (alloc_world w k) = node_count w /\
  heap (alloc_world w k) (next_alloc w) = mkNode k null null access_zero false false.
Proof.
  intros Hinv. set (p := next_alloc w).
  assert (Hp : p ∉ mouth :: l).
  { intros Hin. pose proof (inv_alloc _ _ Hinv p Hin). unfold p in *. lia. }
  assert (Hsame : forall q, q ∈ mouth :: l ->
            upd (heap w) p (mkNode k null null access_zero false false) q = heap w q).
  { intros q Hq. apply upd_ne. intros ->. done. }
  split; [|split; [done|split; [|split; [done|split; [done|split; [done|]]]]]].
  - constructor; simpl; fold p.
    + eapply linked_ext; [| |exact (inv_ring _ _ Hinv)].
      * intros q Hq. change (mouth :: l ++ [mouth]) with ((mouth :: l) ++ [mouth]) in Hq.
        rewrite removelast_snoc in Hq. rewrite (Hsame q); done.
      * intros q Hq. rewrite (Hsame q); [done|set_solver].
    + exact (inv_nodup _ _ Hinv).
    + intros k' q. rewrite (inv_index _ _ Hinv). split.
      * intros [Hq Hk]. split; [done|]. rewrite upd_ne; [done|]. intros ->. set_solver.
      * intros [Hq Hk]. split; [done|]. rewrite upd_ne in Hk; [done|]. intros ->. set_solver.
    + exact (inv_count _ _ Hinv).
    + exact (inv_size _ _ Hinv).
    + intros q Hq. pose proof (inv_alloc _ _ Hinv q Hq). lia.
  - repeat split; simpl; try done; try lia.
    intros q Hq. rewrite upd_ne; [done|]. unfold p in *. lia.
  - simpl. apply upd_eq.
Qed.

(** The state right after a new entry [p] with key [k] is linked in and
    counted, before the eviction loop. *)
Definition linked_in_world (w : world) (p : ptr) : world :=
  with_node_count (S (node_count w))
    (with_heap (link_front_heap (heap w) p)
      (with_node_set (<[key (heap w p) := p]> (node_set w)) w)).

Lemma add_node_without_eviction_eq w p :
  p <> mouth ->
  add_node_without_eviction hook p w =
  match node_set w !! key (heap w p) with
  | Some _ => Some (false, w)
  | None => bindM (evict_excess hook) (fun _ => retM true) (linked_in_world w p)
  end.
Proof.
  intros Hp. destruct (node_set w !! key (heap w p)) eqn:E;
    unfold add_node_without_eviction, assertM, bindM, gets, rd_node;
    rewrite (proj2 (Nat.eqb_neq p mouth) Hp); simpl; rewrite E; reflexivity.
Qed.

Lemma linked_in_spec w l p :
  lru_inv w l -> p ∉ mouth :: l -> p < next_alloc w ->
  node_set w !! key (heap w p) = None ->
  lru_inv (linked_in_world w p) (p :: l) /\ cache_frame w (linked_in_world w p) /\
  log (linked_in_world w p) = log w /\
  node_set (linked_in_world w p) = <[key (heap w p) := p]> (node_set w).
Proof.
  intros Hinv Hp Hlt Hnone.
  assert (Hpm : p <> mouth) by set_solver.
  assert (Hpay : forall q, payload (link_front_heap (heap w) p q) = payload (heap w q))
    by (intros; apply link_front_heap_payload).
  assert (Hkey : forall q, key (link_front_heap (heap w) p q) = key (heap w q)).
  { intros q. pose proof (Hpay q) as H. unfold payload in H. congruence. }
  split; [|split; [|split; done]].
  - constructor; simpl.
    + apply ring_link_front; [exact (inv_nodup _ _ Hinv)|done|exact (inv_ring _ _ Hinv)].
    + pose proof (inv_nodup _ _ Hinv) as Hnd. apply NoDup_cons in Hnd as [Hm Hnd].
      constructor; [set_solver|]. constructor; [set_solver|done].
    + intros k q. rewrite Hkey. rewrite lookup_insert_Some. rewrite (inv_index _ _ Hinv).
      split.
      * intros [[<- <-]|(Hne & Hq & Hk)]; set_solver.
      * intros [Hq Hk]. apply elem_of_cons in Hq as [->|Hq]; [by left|].
        right. split; [|done]. intros <-.
        assert (node_set w !! key (heap w p) = Some q) as Hs.
        { apply (inv_index _ _ Hinv). split; [done|]. by rewrite Hk. }
        congruence.
    + rewrite (inv_count _ _ Hinv). done.
    + rewrite map_size_insert_None by done. rewrite (inv_size _ _ Hinv). done.
    + intros q Hq. apply elem_of_cons in Hq as [->|Hq]; [apply (inv_alloc _ _ Hinv); set_solver|].
      apply elem_of_cons in Hq as [->|Hq]; [done|].
      apply (inv_alloc _ _ Hinv). set_solver.
  - repeat split; simpl; try done; intros q _; apply Hpay.
Qed.

Lemma add_node_without_eviction_spec w l p :
  lru_inv w l -> p ∉ mouth :: l -> p < next_alloc w ->
  node_set w !! key (heap w p) = None ->
  exists w', add_node_without_eviction hook p w = Some (true, w') /\
    lru_inv w' (take (max_node_count w) (p :: l)) /\ cache_frame w w' /\
    log w' = log w ++ evict_events hook (heap w) (rev (drop (max_node_count w) (p :: l))).
Proof.
  intros Hinv Hp Hlt Hnone.
  assert (Hpm : p <> mouth) by set_solver.
  destruct (linked_in_spec w l p Hinv Hp Hlt Hnone) as (Hinv1 & Hfr1 & Hlog1 & _).
  destruct (evict_excess_spec _ _ Hinv1) as (w2 & Hrun & Hinv2 & Hfr2 & Hlog2).
  destruct Hfr1 as (Hm1 & Ha1 & Hp1 & Hl1 & Hpl1) eqn:Hfr1'.
  exists w2. rewrite add_node_without_eviction_eq, Hnone by done.
  rewrite (bind_Some _ _ _ tt w2) by done. rewrite Hm1 in Hinv2, Hlog2.
  split; [done|split; [done|split]].
  - eapply cache_frame_trans; [exact Hfr1|exact Hfr2].
  - rewrite Hlog2, Hlog1. f_equal. apply evict_events_frame. intros y Hy.
    rewrite elem_of_rev_iff in Hy. apply Hpl1.
    pose proof (subseteq_drop (max_node_count w) (p :: l)) as Hs.
    apply Hs in Hy. apply elem_of_cons in Hy as [->|Hy]; [done|].
    apply (inv_elem_alloc w l); done.
Qed.

Lemma evict_excess_noop w :
  node_count w <= max_node_count w -> evict_excess hook w = Some (tt, w).
Proof.
  intros H. unfold evict_excess, bindM, gets. destruct (node_count w) as [|c] eqn:Hc; [done|].
  rewrite evict_while_over_S. rewrite Hc. rewrite (proj2 (Nat.ltb_ge _ _)) by lia. done.
Qed.

Lemma add_node_spec w l p :
  lru_inv w l -> p ∉ mouth :: l -> p < next_alloc w ->
  node_set w !! key (heap w p) = None ->
  exists w', add_node hook p w = Some (true, w') /\
    lru_inv w' (take (max_node_count w) (p :: l)) /\ cache_frame w w' /\
    log w' = log w ++ evict_events hook (heap w) (rev (drop (max_node_count w) (p :: l))).
Proof.
  intros Hinv Hp Hlt Hnone.
  destruct (add_node_without_eviction_spec w l p Hinv Hp Hlt Hnone) as (w2 & Hrun & Hinv2 & Hfr2 & Hlog2).
  exists w2. unfold add_node. rewrite (bind_Some _ _ _ true w2) by done. simpl.
  rewrite (bind_Some _ _ _ tt w2); [done|].
  apply evict_excess_noop. rewrite (inv_count _ _ Hinv2). destruct Hfr2 as [Hm _].
  rewrite length_take. lia.
Qed.

Lemma add_present w p q :
  p <> mouth -> node_set w !! key (heap w p) = Some q ->
  add_node_without_eviction hook p w = Some (false, w) /\ add_node hook p w = Some (false, w).
Proof.
  intros Hp Hq. rewrite add_node_without_eviction_eq, Hq by done. split; [done|].
  unfold add_node. rewrite (bind_Some _ _ _ false w); [done|].
  rewrite add_node_without_eviction_eq, Hq by done. done.
Qed.

End CacheSpec.

(** ** Writes of an entry's own fields *)

Lemma upd_inv w l q n :
  lru_inv w l -> key n = key (heap w q) -> prev n = prev (heap w q) ->
  next n = next (heap w q) ->
  lru_inv (with_heap (upd (heap w) q n) w) l.
Proof.
  intros Hinv Hk Hp Hn.
  assert (Hkey : forall r, key (upd (heap w) q n r) = key (heap w r)).
  { intros r. rewrite upd_case. case_decide; subst; done. }
  constructor; simpl.
  - eapply linked_ext; [| |exact (inv_ring _ _ Hinv)];
      intros r _; rewrite upd_case; case_decide; subst; done.
  - exact (inv_nodup _ _ Hinv).
  - intros k r. rewrite Hkey. apply (inv_index _ _ Hinv).
  - exact (inv_count _ _ Hinv).
  - exact (inv_size _ _ Hinv).
  - exact (inv_alloc _ _ Hinv).
Qed.

Lemma with_log_inv w l es : lru_inv w l -> lru_inv (with_log es w) l.
Proof. intros []. constructor; assumption. Qed.

Lemma autoload_hook_payload n1 n2 p :
  payload n1 = payload n2 ->
  autoload_node_was_evicted n1 p = autoload_node_was_evicted n2 p.
Proof.
  unfold payload, autoload_node_was_evicted. intros H. injection H as Hk _ Hl _.
  by rewrite Hk, Hl.
Qed.

(** The effects of an eviction by the autoloader: unregistering a command,
    freeing a node. *)
Definition is_evict_event (e : event) : bool :=
  match e with CommandRemoved _ | NodeDeleted _ => true | _ => false end.

Definition evict_only (evs : list event) : Prop :=
  Forall (fun e => is_evict_event e = true) evs.

Lemma evict_events_only h xs :
  evict_only (evict_events autoload_node_was_evicted h xs).
Proof.
  unfold evict_only, evict_events. induction xs as [|x xs IH]; simpl; [constructor|].
  apply Forall_app. split; [|done].
  unfold autoload_node_was_evicted. destruct (negb _); repeat constructor.
Qed.

Lemma evict_only_app evs1 evs2 :
  evict_only evs1 -> evict_only evs2 -> evict_only (evs1 ++ evs2).
Proof. intros. by apply Forall_app. Qed.

Lemma insert_new_spec w l p rl :
  lru_inv w l -> p ∉ mouth :: l -> p < next_alloc w ->
  node_set w !! key (heap w p) = None ->
  exists w', insert_new p rl w = Some (true, w') /\
    lru_inv w' (take (max_node_count w) (p :: l)) /\ cache_frame w w' /\
    log w' = log w ++ evict_events autoload_node_was_evicted (heap w)
                        (rev (drop (max_node_count w) (p :: l))).
Proof.
  intros. unfold insert_new. destruct rl.
  - apply add_node_spec; auto using autoload_hook_payload.
  - apply add_node_without_eviction_spec; auto using autoload_hook_payload.
Qed.

Lemma cache_frame_upd_fresh w w' q n :
  cache_frame w w' -> next_alloc w <= q ->
  cache_frame w (with_heap (upd (heap w') q n) w').
Proof.
  intros (H1 & H2 & H3 & H4 & H5) Hq. repeat split; simpl; try done.
  intros r Hr. rewrite upd_ne by lia. auto.
Qed.

(** The access attempt with [last_checked] refreshed (lines 414-415). *)
Definition touch_access (a : file_access_attempt) (t : Z) : file_access_attempt :=
  mkAccess (mod_time a) t (accessible a) (stale a) (error a).

Lemma insert_placeholder_present env w l cmd rl p :
  lru_inv w l -> node_set w !! cmd = Some p ->
  exists w' l', insert_placeholder env cmd rl w = Some (tt, w') /\
    lru_inv w' l' /\ node_set w' = node_set w /\ log w' = log w /\
    next_alloc w' = next_alloc w /\ node_count w' = node_count w /\
    max_node_count w' = max_node_count w /\ path w' = path w /\
    is_loading_set w' = is_loading_set w /\
    (forall q, q <> p -> payload (heap w' q) = payload (heap w q)) /\
    payload (heap w' p) = (key (heap w p), touch_access (access (heap w p)) (now env),
                           is_loaded (heap w p), is_placeholder (heap w p)).
Proof.
  intros Hinv Hp.
  destruct (get_node_spec _ autoload_hook_payload w l cmd p Hinv Hp)
    as (l1 & l2 & -> & Hget & Hinv1 & Hpay).
  set (w1 := with_heap (link_front_heap (unlink_heap (heap w) p) p) w) in *.
  set (n := heap w1 p).
  exists (with_heap (upd (heap w1) p (set_access_field n (touch_access (access n) (now env)))) w1),
    (p :: l1 ++ l2).
  unfold insert_placeholder. rewrite (bind_Some _ _ _ _ _ Hget).
  split; [reflexivity|].
  split; [apply upd_inv; done|].
  simpl. repeat split; try done.
  - intros q Hq. rewrite upd_ne by done. apply Hpay.
  - rewrite upd_eq. pose proof (Hpay p) as Hq. unfold payload in Hq |- *.
    injection Hq as Hk Ha Hl Hph. unfold n, w1. simpl.
    by rewrite Hk, Ha, Hl, Hph.
Qed.

Lemma insert_placeholder_absent env w l cmd rl :
  lru_inv w l -> node_set w !! cmd = None ->
  exists w', insert_placeholder env cmd rl w = Some (tt, w') /\
    lru_inv w' (take (max_node_count w) (next_alloc w :: l)) /\
    cache_frame w w' /\
    log w' = log w ++ evict_events autoload_node_was_evicted
      (upd (heap (alloc_world w cmd)) (next_alloc w)
         (set_placeholder_field (heap (alloc_world w cmd) (next_alloc w)) true))
      (rev (drop (max_node_count w) (next_alloc w :: l))) /\
    payload (heap w' (next_alloc w)) = (cmd, mkAccess 0 (now env) false false 0, false, true) /\
    (0 < max_node_count w -> node_set w' !! cmd = Some (next_alloc w)).
Proof.
  intros Hinv Hnone.
  unfold insert_placeholder. rewrite (bind_Some _ _ _ None w (get_node_None w cmd Hnone)).
  destruct (alloc_spec _ autoload_hook_payload w l cmd Hinv)
    as (Hinv1 & Hp & Hfr1 & Hns1 & Hlog1 & Hc1 & Hh1).
  set (p := next_alloc w) in *.
  set (w1 := alloc_world w cmd) in *.
  set (w2 := with_heap (upd (heap w1) p (set_placeholder_field (heap w1 p) true)) w1).
  assert (Hinv2 : lru_inv w2 l) by (apply upd_inv; done).
  assert (Hfr2 : cache_frame w w2) by (apply cache_frame_upd_fresh; [done|lia]).
  assert (Hh2 : heap w2 p = mkNode cmd null null access_zero false true).
  { change (heap w2 p) with (upd (heap w1) p (set_placeholder_field (heap w1 p) true) p).
    rewrite upd_eq, Hh1. reflexivity. }
  assert (Hna2 : p < next_alloc w2) by (unfold w2, w1, alloc_world; simpl; lia).
  assert (Hns2 : node_set w2 !! key (heap w2 p) = None) by (rewrite Hh2; exact Hnone).
  destruct (insert_new_spec w2 l p rl Hinv2 Hp Hna2 Hns2) as (w3 & Hrun & Hinv3 & Hfr3 & Hlog3).
  set (n3 := heap w3 p).
  exists (with_heap (upd (heap w3) p (set_access_field n3 (touch_access (access n3) (now env)))) w3).
  assert (Hrun' : (p0 <- new_autoload_function cmd ;;
                   n <- rd_node p0 ;; wr_node p0 (set_placeholder_field n true) ;;;
                   insert_new p0 rl ;;; retM p0) w = Some (p, w3)).
  { rewrite (bind_Some _ _ _ p w1 (new_autoload_function_eq w cmd)).
    change ((insert_new p rl ;;; retM p) w2 = Some (p, w3)).
    by rewrite (bind_Some _ _ _ _ _ Hrun). }
  rewrite (bind_Some _ _ _ _ _ Hrun').
  assert (Hpay3 : payload n3 = (cmd, access_zero, false, true)).
  { unfold n3. destruct Hfr3 as (_ & _ & _ & _ & H5). rewrite (H5 p Hna2), Hh2. reflexivity. }
  assert (Hm : max_node_count w2 = max_node_count w) by reflexivity.
  split; [reflexivity|]. split; [|split; [|split; [|split]]].
  - rewrite <- Hm. apply upd_inv; done.
  - apply cache_frame_upd_fresh; [|lia]. by apply (cache_frame_trans _ w2).
  - simpl. rewrite Hlog3. reflexivity.
  - simpl. rewrite upd_eq. unfold payload in Hpay3 |- *. injection Hpay3 as Hk Ha Hl Hph.
    simpl. by rewrite Hk, Ha, Hl, Hph.
  - intros Hmax. apply (inv_index _ _ (upd_inv w3 _ p (set_access_field n3 (touch_access (access n3) (now env)))
             Hinv3 eq_refl eq_refl eq_refl)).
    rewrite Hm. destruct (max_node_count w) as [|m]; [lia|]. split; [set_solver|].
    simpl. rewrite upd_eq. unfold payload in Hpay3. injection Hpay3 as Hk _ _ _. done.
Qed.

(** ** The path search *)

(** The candidate file for [cmd] in directory [d] (line 348). *)
Definition candidate (cmd d : string) : string := (d ++ "/" ++ cmd ++ ".fish")%string.

(** Whether [access_file] reports the path accessible. *)
Definition probe_ok (env : collaborators) (p : string) : bool :=
  match filesystem env p with StatOk _ None => true | _ => false end.

Definition is_exec (e : event) : bool :=
  match e with SubshellRun _ => true | _ => false end.

Definition is_probe (e : event) : bool :=
  match e with FileProbed _ => true | _ => false end.

Lemma access_file_spec env p w :
  exists a, access_file env p w = Some (a, with_log (log w ++ [FileProbed p]) w) /\
    accessible a = probe_ok env p.
Proof.
  unfold access_file, probe_ok. destruct (filesystem env p) as [e|mt [e|]]; eexists; split; reflexivity.
Qed.

(** The state after [p->field = ...] for a field other than the links. *)
Definition wr_fld (w : world) (p : ptr) (f : node -> node) : world :=
  with_heap (upd (heap w) p (f (heap w p))) w.

Lemma wr_fld_inv w l p f :
  lru_inv w l ->
  (forall n, key (f n) = key n /\ prev (f n) = prev n /\ next (f n) = next n) ->
  lru_inv (wr_fld w p f) l.
Proof. intros Hinv Hf. destruct (Hf (heap w p)) as (? & ? & ?). by apply upd_inv. Qed.

Lemma found_file_at_spec env w l cmd fpath rl acc :
  lru_inv w l ->
  exists (need : bool) w' l', found_file_at env cmd fpath rl acc w =
      Some ((if need then Some (". " ++ escape_string env fpath)%string else None, need), w') /\
    lru_inv w' l' /\
    need = rl && match node_set w !! cmd with
                 | None => true
                 | Some p => Z.eqb (mod_time (access (heap w p))) (mod_time acc)
                             || negb (is_loaded (heap w p))
                 end /\
    exists evs, log w' = log w ++ evs /\ evict_only evs.
Proof.
  intros Hinv. destruct (node_set w !! cmd) as [p|] eqn:Hp.
  - destruct (get_node_spec _ autoload_hook_payload w l cmd p Hinv Hp)
      as (l1 & l2 & -> & Hget & Hinv1 & Hpay).
    set (w1 := with_heap (link_front_heap (unlink_heap (heap w) p) p) w) in *.
    unfold found_file_at. rewrite (bind_Some _ _ _ _ _ Hget).
    cbn.
    pose proof (Hpay p) as Hk. unfold payload in Hk. injection Hk as Hk Ha Hl Hph.
    rewrite Ha, Hl.
    destruct (rl && _) eqn:Hneed.
    + exists true. destruct (is_loaded (heap w p)) eqn:El.
      * exists (wr_fld (wr_fld (wr_fld (with_log (log w1 ++ [CommandRemoved cmd]) w1) p
                  (fun n => set_placeholder_field n false)) p
                  (fun n => set_loaded_field n true)) p (fun n => set_access_field n acc)).
        exists (p :: l1 ++ l2). split; [reflexivity|].
        split; [repeat apply wr_fld_inv; try (intros; done); by apply with_log_inv|].
        split; [done|]. exists [CommandRemoved cmd]. split; [done|]. repeat constructor.
      * exists (wr_fld (wr_fld w1 p (fun n => set_loaded_field n true)) p
                  (fun n => set_access_field n acc)).
        exists (p :: l1 ++ l2). split; [reflexivity|].
        split; [repeat apply wr_fld_inv; try (intros; done); done|].
        split; [done|]. exists []. split; [by rewrite app_nil_r|]. constructor.
    + exists false. exists (wr_fld w1 p (fun n => set_access_field n acc)).
      exists (p :: l1 ++ l2). split; [reflexivity|].
      split; [apply wr_fld_inv; try (intros; done); done|].
      split; [done|]. exists []. split; [by rewrite app_nil_r|]. constructor.
  - destruct (alloc_spec _ autoload_hook_payload w l cmd Hinv)
      as (Hinv1 & Hpn & Hfr1 & Hns1 & Hlog1 & Hc1 & Hh1).
    set (p := next_alloc w) in *. set (w1 := alloc_world w cmd) in *.
    assert (Hna1 : p < next_alloc w1) by (unfold w1, alloc_world; simpl; lia).
    assert (Hns1' : node_set w1 !! key (heap w1 p) = None) by (rewrite Hh1, Hns1; exact Hp).
    destruct (insert_new_spec w1 l p rl Hinv1 Hpn Hna1 Hns1') as (w2 & Hrun & Hinv2 & Hfr2 & Hlog2).
    unfold found_file_at. rewrite (bind_Some _ _ _ _ _ (get_node_None w cmd Hp)).
    rewrite (bind_Some (rd_opt_node None) _ w None w eq_refl). cbv beta iota.
    rewrite andb_true_r. exists rl.
    assert (Hp0 : (p0 <- new_autoload_function cmd;; insert_new p0 rl;;; retM p0) w = Some (p, w2)).
    { rewrite (bind_Some _ _ _ p w1 (new_autoload_function_eq w cmd)).
      change ((insert_new p rl ;;; retM p) w1 = Some (p, w2)).
      by rewrite (bind_Some _ _ _ _ _ Hrun). }
    assert (Hinv2' : lru_inv w2 (take (max_node_count w) (p :: l))) by exact Hinv2.
    assert (Hev : exists evs, log w2 = log w ++ evs /\ evict_only evs).
    { eexists. split; [rewrite Hlog2, Hlog1; reflexivity|]. apply evict_events_only. }
    destruct rl.
    + rewrite (bind_Some _ _ w (Some (". " ++ escape_string env fpath)%string, true) w eq_refl).
      rewrite (bind_Some _ _ _ _ _ Hp0).
      exists (wr_fld (wr_fld w2 p (fun n => set_loaded_field n true)) p
                (fun n => set_access_field n acc)).
      exists (take (max_node_count w) (p :: l)). split; [reflexivity|].
      split; [repeat apply wr_fld_inv; try (intros; done); done|].
      split; [done|]. exact Hev.
    + rewrite (bind_Some _ _ w (None, false) w eq_refl).
      rewrite (bind_Some _ _ _ _ _ Hp0).
      exists (wr_fld w2 p (fun n => set_access_field n acc)).
      exists (take (max_node_count w) (p :: l)). split; [reflexivity|].
      split; [apply wr_fld_inv; try (intros; done); done|].
      split; [done|]. exact Hev.
Qed.

Definition probes (cmd : string) (dirs : list string) : list event :=
  map (fun d => FileProbed (candidate cmd d)) dirs.

Lemma search_path_fail env w cmd rl dirs :
  forallb (fun d => negb (probe_ok env (candidate cmd d))) dirs = true ->
  search_path env cmd rl dirs w =
    Some ((false, None, false), with_log (log w ++ probes cmd dirs) w).
Proof.
  revert w. induction dirs as [|d dirs IH]; intros w Hall; simpl in Hall.
  - simpl. rewrite app_nil_r. by destruct w.
  - apply andb_prop in Hall as [Hd Hall].
    destruct (access_file_spec env (candidate cmd d) w) as (a & Ha & Hacc).
    simpl. rewrite (bind_Some _ _ _ _ _ Ha).
    rewrite Hacc. apply negb_true_iff in Hd. rewrite Hd. rewrite IH by done.
    simpl. by rewrite <- app_assoc.
Qed.

Lemma search_path_spec env w l cmd rl dirs :
  lru_inv w l ->
  exists found src (reloaded : bool) w' l',
    search_path env cmd rl dirs w = Some ((found, src, reloaded), w') /\
    lru_inv w' l' /\
    found = existsb (fun d => probe_ok env (candidate cmd d)) dirs /\
    src = (if reloaded then Some (". " ++ escape_string env (candidate cmd
             (default ""%string (List.find (fun d => probe_ok env (candidate cmd d)) dirs))))%string
           else None) /\
    (reloaded = true -> rl = true) /\
    exists evs, log w' = log w ++ evs /\ Forall (fun e => is_exec e = false) evs.
Proof.
  revert w l. induction dirs as [|d dirs IH]; intros w l Hinv.
  - exists false, None, false, w, l.
    do 5 (split; [done|]). exists []. split; [by rewrite app_nil_r|constructor].
  - destruct (access_file_spec env (candidate cmd d) w) as (a & Ha & Hacc).
    set (w1 := with_log (log w ++ [FileProbed (candidate cmd d)]) w).
    assert (Hinv1 : lru_inv w1 l) by (by apply with_log_inv).
    simpl. rewrite (bind_Some _ _ _ _ _ Ha). fold w1. rewrite Hacc.
    destruct (probe_ok env (candidate cmd d)) eqn:Hok; simpl.
    + destruct (found_file_at_spec env w1 l cmd (candidate cmd d) rl a Hinv1)
        as (need & w' & l' & Hrun & Hinv' & Hneed & evs & Hlog & Hevs).
      rewrite (bind_Some _ _ _ _ _ Hrun).
      exists true, (if need then Some (". " ++ escape_string env (candidate cmd d))%string else None),
        need, w', l'.
      split; [reflexivity|]. split; [done|]. split; [done|]. split; [done|].
      split; [intros ->; by destruct rl|].
      exists (FileProbed (candidate cmd d) :: evs). split.
      * rewrite Hlog. simpl. by rewrite <- app_assoc.
      * constructor; [done|]. eapply Forall_impl; [exact Hevs|].
        intros [] He; done.
    + destruct (IH w1 l Hinv1) as (found & src & reloaded & w' & l' & Hrun & Hinv' & Hf & Hs & Hr & evs & Hlog & Hevs).
      exists found, src, reloaded, w', l'.
      split; [done|]. split; [done|]. split; [done|]. split; [done|]. split; [done|].
      exists (FileProbed (candidate cmd d) :: evs). split.
      * rewrite Hlog. simpl. by rewrite <- app_assoc.
      * by constructor.
Qed.

Lemma insert_placeholder_spec env w l cmd rl :
  lru_inv w l ->
  exists w' l', insert_placeholder env cmd rl w = Some (tt, w') /\ lru_inv w' l' /\
    exists evs, log w' = log w ++ evs /\ evict_only evs.
Proof.
  intros Hinv. destruct (node_set w !! cmd) as [p|] eqn:Hp.
  - destruct (insert_placeholder_present env w l cmd rl p Hinv Hp)
      as (w' & l' & Hrun & Hinv' & _ & Hlog & _).
    exists w', l'. split; [done|]. split; [done|].
    exists []. split; [by rewrite app_nil_r|constructor].
  - destruct (insert_placeholder_absent env w l cmd rl Hinv Hp)
      as (w' & Hrun & Hinv' & _ & Hlog & _).
    exists w', (take (max_node_count w) (next_alloc w :: l)).
    split; [done|]. split; [done|]. eexists. split; [exact Hlog|]. apply evict_events_only.
Qed.

(** ** The cache check *)

(** What [get_node(cmd)] finds, read before the call. *)
Definition cached_entry (w : world) (cmd : string) : option node :=
  match node_set w !! cmd with Some p => Some (heap w p) | None => None end.

Lemma get_and_read w l cmd :
  lru_inv w l ->
  exists w1 l1 fn,
    (forall B (k : option node -> M B),
       (func <- get_node cmd ;; fnode <- rd_opt_node func ;; k fnode) w = k fn w1) /\
    lru_inv w1 l1 /\ log w1 = log w /\ node_set w1 = node_set w /\
    option_map payload fn = option_map payload (cached_entry w cmd).
Proof.
  intros Hinv. unfold cached_entry. destruct (node_set w !! cmd) as [p|] eqn:Hp.
  - destruct (get_node_spec _ autoload_hook_payload w l cmd p Hinv Hp)
      as (l1 & l2 & -> & Hget & Hinv1 & Hpay).
    eexists _, _, (Some _). split; [|split; [exact Hinv1|]].
    + intros B k. rewrite (bind_Some _ _ _ _ _ Hget). reflexivity.
    + split; [done|]. split; [done|]. simpl. f_equal. apply Hpay.
  - exists w, l, None. split; [|done].
    intros B k. rewrite (bind_Some _ _ _ _ _ (get_node_None w cmd Hp)). reflexivity.
Qed.

Lemma can_use_cached_payload env rl reload f1 f2 :
  option_map payload f1 = option_map payload f2 ->
  can_use_cached env rl reload f1 = can_use_cached env rl reload f2.
Proof.
  destruct f1 as [n1|], f2 as [n2|]; intros H; try discriminate; [|done].
  assert (Hp : payload n1 = payload n2) by (simpl in H; congruence).
  unfold payload in Hp. injection Hp as _ Ha Hl _.
  unfold can_use_cached. by rewrite Ha, Hl.
Qed.

Lemma cached_accessible_payload (f1 f2 : option node) :
  option_map payload f1 = option_map payload f2 ->
  match f1 with Some n => accessible (access n) | None => false end =
  match f2 with Some n => accessible (access n) | None => false end.
Proof.
  destruct f1 as [n1|], f2 as [n2|]; intros H; try discriminate; [|done].
  assert (Hp : payload n1 = payload n2) by (simpl in H; congruence).
  unfold payload in Hp. injection Hp as _ Ha _ _. by rewrite Ha.
Qed.

Lemma bind_assoc {A B C} (m : M A) (f : A -> M B) (g : B -> M C) w :
  bindM (bindM m f) g w = bindM m (fun a => bindM (f a) g) w.
Proof. unfold bindM. destruct (m w) as [[a w1]|]; reflexivity. Qed.

(** What one call of [locate_file_and_maybe_load_it] does, by the branch
    it takes. *)
Lemma locate_spec env w l cmd rl reload dirs :
  lru_inv w l ->
  exists b w' l' evs,
    locate_file_and_maybe_load_it env cmd rl reload dirs w = Some (b, w') /\
    lru_inv w' l' /\ log w' = log w ++ evs /\
    (can_use_cached env rl reload (cached_entry w cmd) = true ->
       evs = [] /\ node_set w' = node_set w /\
       b = match cached_entry w cmd with Some n => accessible (access n) | None => false end) /\
    (can_use_cached env rl reload (cached_entry w cmd) = false ->
       match matching_builtin_script env cmd with
       | Some bi =>
           b = negb rl /\ node_set w' = node_set w /\
           evs = (if rl then [SubshellRun (bdef bi)] else [])
       | None =>
           exists found (reloaded : bool) evs1 src,
             found = existsb (fun d => probe_ok env (candidate cmd d)) dirs /\
             (reloaded = true -> rl = true) /\
             Forall (fun e => is_exec e = false) evs1 /\
             evs = evs1 ++ (if rl && reloaded then [SubshellRun src] else []) /\
             b = (if rl then reloaded else found)
       end).
Proof.
  intros Hinv.
  destruct (get_and_read w l cmd Hinv) as (w1 & l1 & fn & Hk & Hinv1 & Hlog1 & Hns1 & Hpay).
  unfold locate_file_and_maybe_load_it. rewrite Hk. cbv beta.
  rewrite <- (can_use_cached_payload env rl reload fn _ Hpay).
  rewrite <- (cached_accessible_payload fn _ Hpay).
  destruct (can_use_cached env rl reload fn) eqn:Hc.
  - eexists _, w1, l1, []. split; [reflexivity|]. split; [done|].
    split; [by rewrite app_nil_r|]. split; [done|]. intros; discriminate.
  - destruct (matching_builtin_script env cmd) as [bi|] eqn:Hm; simpl.
    + rewrite (bind_Some _ _ w1 (false, true, bdef bi, false) w1 eq_refl). cbv beta iota.
      destruct rl; simpl.
      * eexists _, _, l1, [SubshellRun (bdef bi)]. split; [reflexivity|].
        split; [by apply with_log_inv|]. split; [simpl; by rewrite Hlog1|].
        split; [intros; discriminate|]. intros _. done.
      * eexists _, _, l1, []. split; [reflexivity|].
        split; [done|]. split; [by rewrite Hlog1, app_nil_r|].
        split; [intros; discriminate|]. intros _. done.
    + rewrite bind_assoc.
      destruct (search_path_spec env w1 l1 cmd rl dirs Hinv1)
        as (found & src & reloaded & w2 & l2 & Hrun & Hinv2 & Hf & Hs & Hr & evs1 & Hlog2 & Hevs1).
      rewrite (bind_Some _ _ _ _ _ Hrun). cbv beta iota. rewrite bind_assoc.
      assert (Hplace : exists w3 l3 evs2,
                 (if negb found && negb (match src with Some _ => true | None => false end)
                  then insert_placeholder env cmd rl else retM tt) w2 = Some (tt, w3) /\
                 lru_inv w3 l3 /\ log w3 = log w2 ++ evs2 /\
                 Forall (fun e => is_exec e = false) evs2).
      { destruct (negb found && _).
        - destruct (insert_placeholder_spec env w2 l2 cmd rl Hinv2)
            as (w3 & l3 & Hrun3 & Hinv3 & evs2 & Hlog3 & Hevs2).
          exists w3, l3, evs2. split; [done|]. split; [done|]. split; [done|].
          eapply Forall_impl; [exact Hevs2|]. intros [] He; done.
        - exists w2, l2, []. split; [done|]. split; [done|].
          split; [by rewrite app_nil_r|constructor]. }
      destruct Hplace as (w3 & l3 & evs2 & Hrun3 & Hinv3 & Hlog3 & Hevs2).
      rewrite (bind_Some _ _ _ _ _ Hrun3). cbv beta.
      rewrite (bind_Some _ _ _ _ w3 eq_refl). cbv beta iota.
      assert (Hlog : log w3 = log w ++ evs1 ++ evs2)
        by (rewrite Hlog3, Hlog2, Hlog1; symmetry; apply app_assoc).
      assert (Hno : Forall (fun e => is_exec e = false) (evs1 ++ evs2))
        by (by apply Forall_app).
      subst src. destruct reloaded.
      * rewrite (Hr eq_refl). simpl.
        eexists _, _, l3, _. split; [reflexivity|].
        split; [by apply with_log_inv|].
        split; [simpl; rewrite Hlog, <- app_assoc; reflexivity|].
        split; [intros; discriminate|]. intros _.
        eexists found, true, (evs1 ++ evs2), _. split; [done|]. split; [done|].
        split; [done|]. split; [reflexivity|done].
      * simpl. destruct (rl && false) eqn:Hrf; [by destruct rl|].
        eexists _, _, l3, (evs1 ++ evs2). split; [reflexivity|].
        split; [done|]. split; [done|].
        split; [intros; discriminate|]. intros _.
        exists found, false, (evs1 ++ evs2), ""%string. split; [done|]. split; [done|].
        split; [done|]. split; [by rewrite Hrf, app_nil_r|].
        destruct rl; simpl; [done|]. by rewrite orb_false_r.
Qed.

(** ** The binary search over the builtin scripts *)

(** The table is sorted by name: [wcscmp] of an earlier name with a later
    one is never positive. *)
Definition names_sorted (arr : list builtin_script) : Prop :=
  forall i j a b, i < j -> arr !! i = Some a -> arr !! j = Some b ->
    String.compare (bname a) (bname b) <> Gt.

Lemma ascii_compare_refl c : Ascii.compare c c = Eq.
Proof. unfold Ascii.compare. apply N.compare_refl. Qed.

Lemma ascii_compare_lt_trans a b c :
  Ascii.compare a b = Lt -> Ascii.compare b c = Lt -> Ascii.compare a c = Lt.
Proof. unfold Ascii.compare. rewrite !N.compare_lt_iff. lia. Qed.

Lemma string_compare_refl s : String.compare s s = Eq.
Proof. induction s as [|c s IH]; simpl; [done|]. by rewrite ascii_compare_refl. Qed.

Lemma string_compare_lt_trans s1 s2 s3 :
  String.compare s1 s2 = Lt -> String.compare s2 s3 = Lt -> String.compare s1 s3 = Lt.
Proof.
  revert s2 s3. induction s1 as [|c1 s1 IH]; intros [|c2 s2] [|c3 s3]; simpl;
    try discriminate; try reflexivity.
  destruct (Ascii.compare c1 c2) eqn:E12; try discriminate;
  destruct (Ascii.compare c2 c3) eqn:E23; try discriminate; intros H1 H2.
  - apply Ascii.compare_eq_iff in E12, E23. subst. rewrite ascii_compare_refl. eauto.
  - apply Ascii.compare_eq_iff in E12. subst. by rewrite E23.
  - apply Ascii.compare_eq_iff in E23. subst. by rewrite E12.
  - by rewrite (ascii_compare_lt_trans _ _ _ E12 E23).
Qed.

Section LowerBound.

Variable arr : list builtin_script.
Variable val : builtin_script.

(** [comp(it, val)] at index [i]. *)
Let P (i : nat) : Prop := script_name_precedes_script_name (nth i arr val) val = true.

Hypothesis P_mono : forall i j, i < j < length arr -> P j -> P i.

Lemma lower_bound_loop_spec f first len :
  len <= f -> first + len <= length arr ->
  (forall i, i < first -> P i) ->
  (forall i, first + len <= i < length arr -> ~ P i) ->
  lower_bound_loop f arr val first len <= length arr /\
  (forall i, i < lower_bound_loop f arr val first len -> P i) /\
  (forall i, lower_bound_loop f arr val first len <= i < length arr -> ~ P i).
Proof.
  revert first len. induction f as [|f IH]; intros first len Hf Hlen Hlo Hhi; simpl.
  - assert (len = 0) as -> by lia. rewrite Nat.add_0_r in Hhi. split; [lia|done].
  - destruct (Nat.ltb_spec 0 len) as [Hpos|Hz]; [|assert (len = 0) as -> by lia;
      rewrite Nat.add_0_r in Hhi; split; [lia|done]].
    pose proof (Nat.lt_div2 len Hpos) as Hhalf.
    remember (Nat.div2 len) as h eqn:Eh. clear Eh.
    destruct (script_name_precedes_script_name (nth (first + h) arr val) val) eqn:Hm.
    + apply IH; [lia|lia| |].
      * intros i Hi. destruct (decide (i = first + h)) as [->|Hne]; [done|].
        destruct (decide (i < first)); [by apply Hlo|].
        apply (P_mono i (first + h)); [lia|done].
      * intros i Hi. apply Hhi. lia.
    + apply IH; [lia|lia|done|].
      intros i Hi HPi. destruct (decide (i = first + h)) as [->|Hne].
      * unfold P in HPi. congruence.
      * assert (HPm : P (first + h)) by (apply (P_mono _ i); [lia|done]).
        unfold P in HPm. congruence.
Qed.

End LowerBound.

Lemma matching_builtin_script_found env cmd :
  names_sorted (builtin_scripts env) ->
  (exists e, e ∈ builtin_scripts env /\ bname e = cmd) ->
  exists e, matching_builtin_script env cmd = Some e /\
    e ∈ builtin_scripts env /\ bname e = cmd.
Proof.
  intros Hs (e & He & Hname).
  set (arr := builtin_scripts env) in *. set (val := mkBuiltin cmd ""%string).
  apply list_elem_of_lookup in He as (j & Hj).
  pose proof (lookup_lt_Some _ _ _ Hj) as Hjn.
  assert (Hmono : forall i k, i < k < length arr ->
            script_name_precedes_script_name (nth k arr val) val = true ->
            script_name_precedes_script_name (nth i arr val) val = true).
  { intros i k Hik. unfold script_name_precedes_script_name. simpl.
    destruct (lookup_lt_is_Some_2 arr i ltac:(lia)) as [a Ha].
    destruct (lookup_lt_is_Some_2 arr k ltac:(lia)) as [b Hb].
    rewrite (nth_lookup_Some _ _ _ _ Ha), (nth_lookup_Some _ _ _ _ Hb).
    pose proof (Hs i k a b ltac:(lia) Ha Hb) as Hab.
    destruct (String.compare (bname b) cmd) eqn:Hbc; try discriminate. intros _.
    destruct (String.compare (bname a) (bname b)) eqn:Hab'; [| |done].
    - apply String.compare_eq_iff in Hab'. by rewrite Hab', Hbc.
    - by rewrite (string_compare_lt_trans _ _ _ Hab' Hbc). }
  destruct (lower_bound_loop_spec arr val Hmono (length arr) 0 (length arr))
    as (Hr & Hlo & Hhi); [lia|lia|lia|lia|].
  fold (lower_bound arr val) in Hr, Hlo, Hhi.
  set (r := lower_bound arr val) in *.
  assert (Hnj : script_name_precedes_script_name (nth j arr val) val = false).
  { unfold script_name_precedes_script_name. rewrite (nth_lookup_Some _ _ _ _ Hj).
    simpl. rewrite Hname, string_compare_refl. done. }
  assert (Hrj : r <= j).
  { destruct (decide (j < r)); [|lia]. pose proof (Hlo j ltac:(lia)). congruence. }
  destruct (lookup_lt_is_Some_2 arr r ltac:(lia)) as [a Ha].
  assert (Hcmp : String.compare (bname a) cmd = Eq).
  { pose proof (Hhi r ltac:(lia)) as Hnr.
    unfold script_name_precedes_script_name in Hnr. rewrite (nth_lookup_Some _ _ _ _ Ha) in Hnr.
    simpl in Hnr.
    destruct (decide (r = j)) as [->|Hne].
    - rewrite Hj in Ha. injection Ha as <-. rewrite Hname. apply string_compare_refl.
    - pose proof (Hs r j a e ltac:(lia) Ha Hj) as Hae. rewrite Hname in Hae.
      destruct (String.compare (bname a) cmd); [done| |done]. exfalso. by apply Hnr. }
  exists a. unfold matching_builtin_script. fold arr.
  rewrite (proj2 (Nat.ltb_lt 0 (length arr)) ltac:(lia)).
  fold val. fold r.
  rewrite (proj2 (Nat.eqb_neq r (length arr)) ltac:(lia)).
  rewrite (nth_lookup_Some _ _ _ _ Ha), Hcmp. simpl.
  split; [done|]. split; [by eapply list_elem_of_lookup_2|].
  by apply String.compare_eq_iff.
Qed.

(** ** Resolving a name that is neither a builtin nor a file *)

Lemma locate_not_found_present env w l cmd rl reload dirs p :
  lru_inv w l -> node_set w !! cmd = Some p ->
  can_use_cached env rl reload (Some (heap w p)) = false ->
  matching_builtin_script env cmd = None ->
  forallb (fun d => negb (probe_ok env (candidate cmd d))) dirs = true ->
  exists w' l', locate_file_and_maybe_load_it env cmd rl reload dirs w = Some (false, w') /\
    lru_inv w' l' /\ node_set w' = node_set w /\ next_alloc w' = next_alloc w /\
    node_count w' = node_count w /\ log w' = log w ++ probes cmd dirs /\
    (forall q, q <> p -> payload (heap w' q) = payload (heap w q)) /\
    payload (heap w' p) = (key (heap w p), touch_access (access (heap w p)) (now env),
                           is_loaded (heap w p), is_placeholder (heap w p)).
Proof.
  intros Hinv Hp Hc Hm Hall.
  destruct (get_node_spec _ autoload_hook_payload w l cmd p Hinv Hp)
    as (l1 & l2 & -> & Hget & Hinv1 & Hpay).
  set (w1 := with_heap (link_front_heap (unlink_heap (heap w) p) p) w) in *.
  unfold locate_file_and_maybe_load_it. rewrite (bind_Some _ _ _ _ _ Hget). cbv beta.
  rewrite (bind_Some (rd_opt_node (Some p)) _ w1 (Some (heap w1 p)) w1 eq_refl). cbv beta.
  rewrite (can_use_cached_payload env rl reload (Some (heap w1 p)) (Some (heap w p)))
    by (simpl; f_equal; apply Hpay).
  rewrite Hc, Hm. cbv beta iota. simpl negb. cbv iota.
  rewrite bind_assoc, (bind_Some _ _ _ _ _ (search_path_fail env w1 cmd rl dirs Hall)).
  cbv beta iota. rewrite bind_assoc. simpl negb. cbv beta iota.
  set (w2 := with_log (log w1 ++ probes cmd dirs) w1).
  assert (Hinv2 : lru_inv w2 (p :: l1 ++ l2)) by (by apply with_log_inv).
  destruct (insert_placeholder_present env w2 _ cmd rl p Hinv2 Hp)
    as (w3 & l3 & Hrun3 & Hinv3 & Hns3 & Hlog3 & Hna3 & Hc3 & _ & _ & _ & Hq3 & Hp3).
  rewrite (bind_Some _ _ _ _ _ Hrun3). cbv beta.
  rewrite (bind_Some _ _ _ _ w3 eq_refl). cbv beta iota. simpl andb.
  exists w3, l3. split; [by destruct rl|].
  split; [done|]. split; [done|]. split; [done|]. split; [done|]. split; [done|].
  split.
  - intros q Hq. rewrite (Hq3 q Hq). apply Hpay.
  - rewrite Hp3. pose proof (Hpay p) as Hpp. unfold payload in Hpp.
    injection Hpp as Hk Ha Hl Hph. simpl. by rewrite Hk, Ha, Hl, Hph.
Qed.

Lemma locate_not_found_absent env w l cmd rl reload dirs :
  lru_inv w l -> node_set w !! cmd = None ->
  matching_builtin_script env cmd = None ->
  forallb (fun d => negb (probe_ok env (candidate cmd d))) dirs = true ->
  exists w' evs, locate_file_and_maybe_load_it env cmd rl reload dirs w = Some (false, w') /\
    lru_inv w' (take (max_node_count w) (next_alloc w :: l)) /\
    log w' = log w ++ probes cmd dirs ++ evs /\ evict_only evs /\
    payload (heap w' (next_alloc w)) = (cmd, mkAccess 0 (now env) false false 0, false, true) /\
    (0 < max_node_count w -> node_set w' !! cmd = Some (next_alloc w)).
Proof.
  intros Hinv Hp Hm Hall.
  unfold locate_file_and_maybe_load_it.
  rewrite (bind_Some _ _ _ _ _ (get_node_None w cmd Hp)). cbv beta.
  rewrite (bind_Some (rd_opt_node None) _ w None w eq_refl). cbv beta.
  change (can_use_cached env rl reload None) with false. rewrite Hm. cbv beta iota.
  simpl negb. cbv iota.
  rewrite bind_assoc, (bind_Some _ _ _ _ _ (search_path_fail env w cmd rl dirs Hall)).
  cbv beta iota. rewrite bind_assoc. simpl negb. cbv beta iota.
  set (w2 := with_log (log w ++ probes cmd dirs) w).
  assert (Hinv2 : lru_inv w2 l) by (by apply with_log_inv).
  destruct (insert_placeholder_absent env w2 l cmd rl Hinv2 Hp)
    as (w3 & Hrun3 & Hinv3 & Hfr3 & Hlog3 & Hp3 & Hin3).
  rewrite (bind_Some _ _ _ _ _ Hrun3). cbv beta.
  rewrite (bind_Some _ _ _ _ w3 eq_refl). cbv beta iota. simpl andb.
  exists w3. eexists. split; [by destruct rl|].
  split; [exact Hinv3|]. split; [rewrite Hlog3; simpl; rewrite <- app_assoc; reflexivity|].
  split; [apply evict_events_only|]. split; [exact Hp3|]. exact Hin3.
Qed.

Lemma with_path_inv w l s : lru_inv w l -> lru_inv (with_path s w) l.
Proof. intros []. constructor; assumption. Qed.

Lemma empty_index w : lru_inv w [] -> node_set w = ∅.
Proof.
  intros Hinv. apply map_eq. intros k. rewrite lookup_empty.
  destruct (node_set w !! k) as [p|] eqn:E; [|done].
  apply (inv_index _ _ Hinv) in E as [E _]. set_solver.
Qed.


(** ** Sequences of cache operations

    The mutating operations of [lru_cache_impl_t] as a client drives them:
    an insertion allocates a fresh entry for the key and hands it to
    [add_node] (or [add_node_without_eviction]); a lookup is [get_node]; a
    removal is [evict_node(key)] or [evict_all_nodes]. *)
Inductive cache_op :=
| OpAdd (k : string)
| OpAddNoEvict (k : string)
| OpGet (k : string)
| OpEvict (k : string)
| OpEvictAll.

Definition run_op (hook : node -> ptr -> list event) (op : cache_op) : M unit :=
  match op with
  | OpAdd k => p <- new_autoload_function k ;; add_node hook p ;;; retM tt
  | OpAddNoEvict k => p <- new_autoload_function k ;; add_node_without_eviction hook p ;;; retM tt
  | OpGet k => get_node k ;;; retM tt
  | OpEvict k => evict_node_key hook k ;;; retM tt
  | OpEvictAll => evict_all_nodes hook
  end.

Fixpoint run_ops (hook : node -> ptr -> list event) (ops : list cache_op) : M unit :=
  match ops with
  | [] => retM tt
  | op :: ops' => run_op hook op ;;; run_ops hook ops'
  end.

Lemma init_world_inv size : lru_inv (init_world size) [].
Proof.
  constructor; simpl.
  - unfold ring. simpl. done.
  - constructor; [set_solver|constructor].
  - intros k p. rewrite lookup_empty. split; [done|]. intros [H _]. set_solver.
  - done.
  - apply map_size_empty.
  - intros p Hp. apply list_elem_of_singleton in Hp as ->. unfold mouth. lia.
Qed.

Lemma inv_capacity w l : lru_inv w l -> length l <= max_node_count w -> within_capacity w.
Proof. intros Hinv H. unfold within_capacity. rewrite (inv_count _ _ Hinv). done. Qed.

Section OpsSpec.

Variable hook : node -> ptr -> list event.
Hypothesis hook_payload : forall n1 n2 p, payload n1 = payload n2 -> hook n1 p = hook n2 p.

Lemma alloc_add_spec w l k (add : ptr -> M bool) :
  lru_inv w l -> within_capacity w ->
  (forall w0 l0 p, lru_inv w0 l0 -> p ∉ mouth :: l0 -> p < next_alloc w0 ->
     node_set w0 !! key (heap w0 p) = None ->
     exists w1, add p w0 = Some (true, w1) /\
       lru_inv w1 (take (max_node_count w0) (p :: l0)) /\ cache_frame w0 w1) ->
  (forall w0 p q, p <> mouth -> node_set w0 !! key (heap w0 p) = Some q ->
     add p w0 = Some (false, w0)) ->
  exists w' l', (p <- new_autoload_function k ;; add p ;;; retM tt) w = Some (tt, w') /\
    lru_inv w' l' /\ within_capacity w'.
Proof.
  intros Hinv Hcap Hadd Hpres.
  destruct (alloc_spec hook hook_payload w l k Hinv)
    as (Hinv1 & Hfresh & Hfr1 & Hns1 & _ & Hc1 & Hp1).
  rewrite (bind_Some _ _ _ _ _ (new_autoload_function_eq w k)). cbv beta.
  assert (Hkey : key (heap (alloc_world w k) (next_alloc w)) = k) by (rewrite Hp1; done).
  destruct (node_set w !! k) as [q|] eqn:Hk.
  - rewrite (bind_Some _ _ _ _ _ (Hpres (alloc_world w k) (next_alloc w) q
      ltac:(set_solver) ltac:(by rewrite Hkey, Hns1))).
    exists (alloc_world w k), l. split; [done|]. split; [done|].
    unfold within_capacity in *. rewrite Hc1. destruct Hfr1 as [-> _]. done.
  - destruct (Hadd (alloc_world w k) l (next_alloc w) Hinv1 Hfresh
      ltac:(simpl; lia) ltac:(by rewrite Hkey, Hns1)) as (w2 & Hrun2 & Hinv2 & Hfr2).
    rewrite (bind_Some _ _ _ _ _ Hrun2).
    eexists w2, _. split; [reflexivity|]. split; [exact Hinv2|].
    apply (inv_capacity _ _ Hinv2). destruct Hfr2 as [-> _]. rewrite length_take. lia.
Qed.

Lemma run_op_spec w l op :
  lru_inv w l -> within_capacity w ->
  exists w' l', run_op hook op w = Some (tt, w') /\ lru_inv w' l' /\ within_capacity w'.
Proof.
  intros Hinv Hcap. destruct op as [k|k|k|k|]; simpl.
  - apply (alloc_add_spec w l k); [done|done| |].
    + intros w0 l0 p H1 H2 H3 H4.
      destruct (add_node_spec hook hook_payload w0 l0 p H1 H2 H3 H4) as (w1 & ? & ? & ? & _).
      eauto.
    + intros w0 p q H1 H2. apply (add_present hook w0 p q H1 H2).
  - apply (alloc_add_spec w l k); [done|done| |].
    + intros w0 l0 p H1 H2 H3 H4.
      destruct (add_node_without_eviction_spec hook hook_payload w0 l0 p H1 H2 H3 H4)
        as (w1 & ? & ? & ? & _).
      eauto.
    + intros w0 p q H1 H2. apply (add_present hook w0 p q H1 H2).
  - destruct (node_set w !! k) as [p|] eqn:Hk.
    + destruct (get_node_spec hook hook_payload w l k p Hinv Hk)
        as (l1 & l2 & -> & Hget & Hinv1 & _).
      rewrite (bind_Some _ _ _ _ _ Hget). eexists _, _. split; [reflexivity|].
      split; [exact Hinv1|]. exact Hcap.
    + rewrite (bind_Some _ _ _ _ _ (get_node_None w k Hk)). eauto.
  - unfold evict_node_key. rewrite bind_assoc.
    rewrite (bind_Some (gets node_set) _ w (node_set w) w eq_refl). cbv beta.
    destruct (node_set w !! k) as [p|] eqn:Hk; [|eauto].
    apply (inv_index _ _ Hinv) in Hk as [Hin _].
    apply list_elem_of_split in Hin as (l1 & l2 & ->).
    destruct (evict_node_spec hook hook_payload w l1 p l2 Hinv) as (Hrun & Hinv1 & Hfr1 & _).
    rewrite bind_assoc, (bind_Some _ _ _ _ _ Hrun).
    eexists _, _. split; [reflexivity|]. split; [exact Hinv1|].
    apply (inv_capacity _ _ Hinv1). destruct Hfr1 as [-> _].
    unfold within_capacity in Hcap. rewrite (inv_count _ _ Hinv), !length_app in Hcap.
    rewrite length_app. simpl in Hcap. lia.
  - destruct (evict_all_nodes_spec hook hook_payload w l Hinv) as (w1 & Hrun & Hinv1 & _).
    exists w1, []. split; [done|]. split; [done|]. apply (inv_capacity _ _ Hinv1). simpl. lia.
Qed.

Lemma run_ops_spec w l ops :
  lru_inv w l -> within_capacity w ->
  exists w' l', run_ops hook ops w = Some (tt, w') /\ lru_inv w' l' /\ within_capacity w'.
Proof.
  revert w l. induction ops as [|op ops IH]; intros w l Hinv Hcap; simpl.
  - eauto.
  - destruct (run_op_spec w l op Hinv Hcap) as (w1 & l1 & Hrun & Hinv1 & Hcap1).
    rewrite (bind_Some _ _ _ _ _ Hrun). apply (IH w1 l1 Hinv1 Hcap1).
Qed.

End OpsSpec.

Lemma payload_key n1 n2 : payload n1 = payload n2 -> key n1 = key n2.
Proof. unfold payload. intros H. injection H. auto. Qed.

Section AddsSpec.

Variable hook : node -> ptr -> list event.
Hypothesis hook_payload : forall n1 n2 p, payload n1 = payload n2 -> hook n1 p = hook n2 p.

(** Inserting keys not yet present while there is room: nothing is evicted
    and the new entries stack up at the front, in reverse order. *)
Lemma run_adds_fresh w l ks :
  lru_inv w l -> NoDup ks -> Forall (fun k => node_set w !! k = None) ks ->
  length l + length ks <= max_node_count w ->
  exists w' ps, run_ops hook (map OpAdd ks) w = Some (tt, w') /\
    lru_inv w' (rev ps ++ l) /\ log w' = log w /\ cache_frame w w' /\
    Forall2 (fun p k => key (heap w' p) = k) ps ks.
Proof.
  revert w l. induction ks as [|k ks IH]; intros w l Hinv Hnd Hall Hlen.
  { exists w, []. simpl. split; [done|]. split; [done|]. split; [done|].
    split; [apply cache_frame_refl|constructor]. }
  apply NoDup_cons in Hnd as [Hkn Hnd]. apply Forall_cons in Hall as [Hk Hall].
  simpl in Hlen. unfold ptr in Hlen.
  destruct (alloc_spec hook hook_payload w l k Hinv)
    as (Hinv1 & Hfresh & Hfr1 & Hns1 & Hlog1 & Hc1 & Hp1).
  set (p := next_alloc w) in *.
  assert (Hkey : key (heap (alloc_world w k) p) = k) by (rewrite Hp1; done).
  destruct (add_node_spec hook hook_payload (alloc_world w k) l p Hinv1 Hfresh
    ltac:(unfold p; simpl; lia) ltac:(by rewrite Hkey, Hns1))
    as (w1 & Hrun1 & Hinv2 & Hfr2 & Hlog2).
  pose proof Hfr1 as (Hm1 & _ & _ & _ & Hpl1).
  pose proof Hfr2 as (Hm2 & Ha2 & _ & _ & Hpl2).
  rewrite Hm1 in Hinv2, Hlog2.
  rewrite take_ge in Hinv2 by (simpl; lia).
  rewrite drop_ge in Hlog2 by (simpl; lia). simpl in Hlog2.
  rewrite app_nil_r in Hlog2.
  assert (Hkey1 : key (heap w1 p) = k).
  { rewrite <- Hkey. apply payload_key, Hpl2. unfold p. simpl. lia. }
  assert (Hall1 : Forall (fun k' => node_set w1 !! k' = None) ks).
  { apply Forall_forall. intros k' Hk'. destruct (node_set w1 !! k') as [q|] eqn:E; [|done].
    apply (inv_index _ _ Hinv2) in E as [Hq Hkq].
    apply elem_of_cons in Hq as [->|Hq]; [congruence|].
    pose proof (inv_alloc _ _ Hinv q ltac:(set_solver)) as Hqa.
    assert (Hkw : key (heap w q) = k').
    { rewrite <- Hkq. symmetry. transitivity (key (heap (alloc_world w k) q)).
      - apply payload_key, Hpl2. simpl. lia.
      - apply payload_key, Hpl1. done. }
    rewrite Forall_forall in Hall. pose proof (Hall k' Hk') as Hn.
    assert (node_set w !! k' = Some q) by (apply (inv_index _ _ Hinv); done). congruence. }
  destruct (IH w1 (p :: l) Hinv2 Hnd Hall1 ltac:(simpl; rewrite Hm2, Hm1; unfold ptr in *; lia))
    as (w' & ps & Hrun & Hinv' & Hlog' & Hfr' & Hkeys).
  exists w', (p :: ps). simpl.
  rewrite bind_assoc, (bind_Some _ _ _ _ _ (new_autoload_function_eq w k)). cbv beta.
  rewrite bind_assoc, (bind_Some _ _ _ _ _ Hrun1). cbv beta.
  rewrite (bind_Some (retM tt) _ w1 tt w1 eq_refl).
  split; [exact Hrun|].
  split; [rewrite <- app_assoc; exact Hinv'|].
  split; [rewrite Hlog', Hlog2; done|].
  split; [eapply cache_frame_trans; [exact Hfr1|]; eapply cache_frame_trans; [exact Hfr2|exact Hfr']|].
  constructor; [|exact Hkeys].
  rewrite <- Hkey1. destruct Hfr' as (_ & _ & _ & _ & Hpl'). apply payload_key, Hpl'.
  apply (inv_alloc _ _ Hinv2). set_solver.
Qed.

End AddsSpec.

Lemma forall2_key_in w ps ks q :
  Forall2 (fun p k => key (heap w p) = k) ps ks -> q ∈ ps -> key (heap w q) ∈ ks.
Proof.
  intros H. induction H as [|p k ps ks Hk H IH]; intros Hq; [set_solver|].
  apply elem_of_cons in Hq as [->|Hq]; [rewrite Hk; set_solver|]. apply IH in Hq. set_solver.
Qed.

Lemma forall2_key_ex w ps ks k :
  Forall2 (fun p k => key (heap w p) = k) ps ks -> k ∈ ks -> exists q, q ∈ ps /\ key (heap w q) = k.
Proof.
  intros H. induction H as [|p k' ps ks Hk H IH]; intros Hin; [set_solver|].
  apply elem_of_cons in Hin as [->|Hin]; [exists p; set_solver|].
  destruct (IH Hin) as (q & ? & ?). exists q. set_solver.
Qed.

Lemma forall2_key_frame w w' ps ks :
  (forall q, q ∈ ps -> key (heap w' q) = key (heap w q)) ->
  Forall2 (fun p k => key (heap w p) = k) ps ks -> Forall2 (fun p k => key (heap w' p) = k) ps ks.
Proof.
  intros Hq H. induction H as [|p k ps ks Hk H IH]; constructor.
  - rewrite Hq; [done|set_solver].
  - apply IH. intros q Hin. apply Hq. set_solver.
Qed.

Lemma NoDup_take_list {A} (j : nat) (xs : list A) : NoDup xs -> NoDup (take j xs).
Proof. intros H. rewrite <- (take_drop j xs) in H. apply NoDup_app in H as [H _]. done. Qed.

Section Scenario.

Variable hook : node -> ptr -> list event.
Hypothesis hook_payload : forall n1 n2 p, payload n1 = payload n2 -> hook n1 p = hook n2 p.

Lemma prefix_adds_keep_first N k1 ks j :
  length (k1 :: ks) = N -> NoDup (k1 :: ks) -> j <= N ->
  exists wj, run_ops hook (map OpAdd (take j (k1 :: ks))) (init_world N) = Some (tt, wj) /\
    log wj = [] /\ (0 < j -> is_Some (node_set wj !! k1)).
Proof.
  intros Hlen Hnd Hj.
  destruct (run_adds_fresh hook hook_payload (init_world N) [] (take j (k1 :: ks))
    (init_world_inv N) (NoDup_take_list j _ Hnd)
    ltac:(apply Forall_forall; intros; apply lookup_empty)
    ltac:(simpl; rewrite length_take; lia))
    as (wj & ps & Hrun & Hinv & Hlog & _ & Hkeys).
  exists wj. split; [done|]. split; [done|]. intros Hpos.
  destruct j as [|j]; [lia|]. simpl in Hkeys.
  inversion Hkeys as [|p1 k ps' ks' Hk1 _]; subst.
  exists p1. apply (inv_index _ _ Hinv). split; [|done].
  rewrite app_nil_r. simpl. set_solver.
Qed.

Lemma adds_evict_first N k1 ks k' :
  length (k1 :: ks) = N -> NoDup (k' :: k1 :: ks) ->
  exists wN p1 ps, run_ops hook (map OpAdd (k1 :: ks)) (init_world N) = Some (tt, wN) /\
    lru_inv wN (ps ++ [p1]) /\ key (heap wN p1) = k1 /\ log wN = [] /\
    exists w', run_op hook (OpAdd k') wN = Some (tt, w') /\
      log w' = hook (heap wN p1) p1 /\ node_set w' !! k1 = None /\
      (forall k, k ∈ k' :: ks -> is_Some (node_set w' !! k)).
Proof.
  intros Hlen Hnd. pose proof Hnd as Hnd'.
  apply NoDup_cons in Hnd' as [Hk' Hnd1].
  destruct (run_adds_fresh hook hook_payload (init_world N) [] (k1 :: ks)
    (init_world_inv N) Hnd1
    ltac:(apply Forall_forall; intros; apply lookup_empty) ltac:(simpl in *; lia))
    as (wN & ps0 & Hrun & Hinv & Hlog & HfrN & Hkeys).
  pose proof (Forall2_length _ _ _ Hkeys) as Hlps.
  inversion Hkeys as [|p1 k ps' ks' Hk1 Hkeys']; subst k ps0 ks'.
  rewrite app_nil_r in Hinv. simpl rev in Hinv.
  exists wN, p1, (rev ps'). split; [done|]. split; [done|]. split; [done|].
  split; [done|].
  apply NoDup_cons in Hnd1 as [Hk1n _].
  (* the (N+1)th insertion *)
  destruct (alloc_spec hook hook_payload wN _ k' Hinv)
    as (Hinv1 & Hfresh & Hfr1 & Hns1 & Hlog1 & _ & Hp1).
  set (p := next_alloc wN) in *.
  assert (Hkey : key (heap (alloc_world wN k') p) = k') by (rewrite Hp1; done).
  assert (HkN : forall q, q ∈ rev ps' ++ [p1] -> key (heap wN q) ∈ k1 :: ks).
  { intros q Hq. apply (forall2_key_in wN (p1 :: ps')); [done|].
    rewrite elem_of_app, elem_of_rev_iff in Hq. set_solver. }
  assert (Hnone : node_set wN !! k' = None).
  { destruct (node_set wN !! k') as [q|] eqn:E; [|done].
    apply (inv_index _ _ Hinv) in E as [Hq Hkq]. apply HkN in Hq. rewrite Hkq in Hq. done. }
  destruct (add_node_spec hook hook_payload (alloc_world wN k') _ p Hinv1 Hfresh
    ltac:(unfold p; simpl; lia) ltac:(by rewrite Hkey, Hns1))
    as (w' & Hrun' & Hinv' & Hfr' & Hlog').
  pose proof HfrN as (HmN & _ & _ & _ & _).
  pose proof Hfr1 as (Hm1 & _ & _ & _ & Hpl1).
  pose proof Hfr' as (_ & _ & _ & _ & Hpl').
  rewrite Hm1, HmN in Hinv', Hlog'. simpl max_node_count in Hinv', Hlog'.
  rewrite app_comm_cons in Hinv', Hlog'.
  rewrite take_app_length' in Hinv' by (simpl; rewrite length_rev; simpl in *; lia).
  rewrite drop_app_length' in Hlog' by (simpl; rewrite length_rev; simpl in *; lia).
  simpl in Hlog'.
  assert (Hp1in : p1 ∈ mouth :: rev ps' ++ [p1]) by set_solver.
  assert (Hp1p : p1 <> p) by (intros ->; done).
  assert (Hkeyw : forall q, q < p -> key (heap w' q) = key (heap wN q)).
  { intros q Hq. transitivity (key (heap (alloc_world wN k') q)).
    - apply payload_key, Hpl'. simpl. lia.
    - apply payload_key, Hpl1. done. }
  assert (Hlt : forall q, q ∈ mouth :: rev ps' ++ [p1] -> q < p)
    by (intros q Hq; apply (inv_alloc _ _ Hinv q Hq)).
  exists w'. split.
  { simpl. rewrite (bind_Some _ _ _ _ _ (new_autoload_function_eq wN k')). cbv beta.
    rewrite (bind_Some _ _ _ _ _ Hrun'). reflexivity. }
  split.
  { rewrite Hlog', Hlog, app_nil_r. simpl. f_equal. apply upd_ne. done. }
  split.
  { destruct (node_set w' !! k1) as [q|] eqn:E; [|done].
    apply (inv_index _ _ Hinv') in E as [Hq Hkq].
    apply elem_of_cons in Hq as [->|Hq].
    - rewrite (payload_key _ _ (Hpl' p ltac:(simpl; lia))), Hkey in Hkq.
      subst. set_solver.
    - rewrite Hkeyw in Hkq by (apply Hlt; set_solver).
      pose proof (forall2_key_in wN ps' ks q Hkeys' ltac:(by apply elem_of_rev_iff)) as Hin.
      rewrite Hkq in Hin. done. }
  intros k Hk. apply elem_of_cons in Hk as [->|Hk].
  - exists p. apply (inv_index _ _ Hinv'). split; [set_solver|].
    rewrite <- Hkey. apply payload_key, Hpl'. simpl. lia.
  - destruct (forall2_key_ex wN ps' ks k Hkeys' Hk) as (q & Hq & Hkq).
    exists q. apply (inv_index _ _ Hinv'). split.
    + apply elem_of_cons. right. by apply elem_of_rev_iff.
    + rewrite Hkeyw; [done|]. apply Hlt. rewrite elem_of_cons, elem_of_app, elem_of_rev_iff. auto.
Qed.

End Scenario.

Lemma with_is_loading_set_inv w l s : lru_inv w l -> lru_inv (with_is_loading_set s w) l.
Proof. intros []. constructor; assumption. Qed.

Lemma op_add_fresh hook
    (Hhook : forall n1 n2 p, payload n1 = payload n2 -> hook n1 p = hook n2 p) w l k :
  lru_inv w l -> node_set w !! k = None ->
  exists w', run_op hook (OpAdd k) w = Some (tt, w') /\
    lru_inv w' (take (max_node_count w) (next_alloc w :: l)).
Proof.
  intros Hinv Hk.
  destruct (alloc_spec hook Hhook w l k Hinv) as (Hinv1 & Hfresh & _ & Hns1 & _ & _ & Hp1).
  destruct (add_node_spec hook Hhook (alloc_world w k) l (next_alloc w) Hinv1 Hfresh
    ltac:(simpl; lia) ltac:(rewrite Hp1, Hns1; exact Hk)) as (w' & Hrun & Hinv' & _).
  exists w'. split; [|exact Hinv'].
  simpl. rewrite (bind_Some _ _ _ _ _ (new_autoload_function_eq w k)). cbv beta.
  rewrite (bind_Some _ _ _ _ _ Hrun). reflexivity.
Qed.

(** ** Concrete inputs for the examples

    A search path with the single directory [/p], in which [foo.fish] and
    [bar.fish] exist and are readable, and a builtin table with [abbr] and
    [zed]. *)
Definition demo_fs (p : string) : stat_result :=
  if String.eqb p "/p/foo.fish" || String.eqb p "/p/bar.fish" then StatOk 5 None
  else StatFailed 2.

Definition demo_builtins : list builtin_script :=
  [mkBuiltin "abbr" "abbr-body"; mkBuiltin "zed" "zed-body"].

Definition demo_env : collaborators :=
  mkCollab "/p" (fun s => [s]) demo_builtins demo_fs 100 (fun s => s) false.



(** The world after running one operation (unchanged if it fails). *)
Definition after_op (hook : node -> ptr -> list event) (op : cache_op) (w : world) : world :=
  match run_op hook op w with Some (_, w') => w' | None => w end.

(** A cache of capacity [cap] holding one entry, with key [k], at pointer 2. *)
Definition demo_world (cap : nat) (k : string) : world :=
  after_op autoload_node_was_evicted (OpAdd k) (init_world cap).

Lemma demo_world_inv cap k : 0 < cap -> lru_inv (demo_world cap k) [2].
Proof.
  intros H.
  destruct (op_add_fresh _ autoload_hook_payload (init_world cap) [] k (init_world_inv cap)
    ltac:(apply lookup_empty)) as (w' & Hrun & Hinv).
  unfold demo_world, after_op. rewrite Hrun. destruct cap as [|cap]; [lia|]. simpl in Hinv. rewrite take_nil in Hinv. exact Hinv.
Qed.

Lemma demo_names_sorted : names_sorted demo_builtins.
Proof.
  intros [|[|i]] [|[|j]] a b Hij Ha Hb; simpl in *; try lia; try discriminate.
  injection Ha as <-. injection Hb as <-. simpl. discriminate.
Qed.

(** ** What the cache and the path search leave alone *)

(** [m] never changes the path, the in-progress set or the capacity. *)
Definition keeps {A} (m : M A) : Prop :=
  forall w a w', m w = Some (a, w') ->
    path w' = path w /\ is_loading_set w' = is_loading_set w /\
    max_node_count w' = max_node_count w.

Lemma keeps_ret {A} (a : A) : keeps (retM a).
Proof. intros w b w' H. injection H as _ <-. done. Qed.

Lemma keeps_gets {A} (f : world -> A) : keeps (gets f).
Proof. intros w b w' H. injection H as _ <-. done. Qed.

Lemma keeps_assert b : keeps (assertM b).
Proof. intros w a w' H. unfold assertM in H. destruct b; [|done]. injection H as _ <-. done. Qed.

Lemma keeps_modify f :
  (forall w, path (f w) = path w /\ is_loading_set (f w) = is_loading_set w /\
             max_node_count (f w) = max_node_count w) ->
  keeps (modify f).
Proof. intros Hf w a w' H. injection H as _ <-. apply Hf. Qed.

Lemma keeps_bind {A B} (m : M A) (k : A -> M B) :
  keeps m -> (forall a, keeps (k a)) -> keeps (bindM m k).
Proof.
  intros Hm Hk w b w' H. unfold bindM in H.
  destruct (m w) as [[a w1]|] eqn:E; [|done].
  destruct (Hm _ _ _ E) as (H1 & H2 & H3). destruct (Hk a _ _ _ H) as (G1 & G2 & G3).
  repeat split; congruence.
Qed.

Ltac keeps_tac :=
  repeat match goal with
  | |- keeps (bindM _ _) => apply keeps_bind; [|intros ?]
  | |- keeps (retM _) => apply keeps_ret
  | |- keeps (gets _) => apply keeps_gets
  | |- keeps (assertM _) => apply keeps_assert
  | |- keeps (modify _) => apply keeps_modify; intros; repeat split
  | |- keeps (emit _) => apply keeps_modify; intros; repeat split
  | |- keeps (rd_node _) => apply keeps_gets
  | |- keeps (rd_prev _) => apply keeps_gets
  | |- keeps (rd_next _) => apply keeps_gets
  | |- keeps (wr_node _ _) => apply keeps_modify; intros; repeat split
  | |- keeps (wr_next _ _) => apply keeps_modify; intros; repeat split
  | |- keeps (wr_prev _ _) => apply keeps_modify; intros; repeat split
  | |- keeps (if ?b then _ else _) => destruct b
  | |- keeps (match ?x with _ => _ end) => destruct x
  | |- keeps _ => solve [eauto]
  end.

Lemma keeps_evict_node hook p : keeps (evict_node hook p).
Proof. unfold evict_node. keeps_tac. Qed.

Lemma keeps_evict_last_node hook : keeps (evict_last_node hook).
Proof. pose proof keeps_evict_node. unfold evict_last_node. keeps_tac. Qed.

Lemma keeps_evict_while_over hook f : keeps (evict_while_over hook f).
Proof. pose proof keeps_evict_last_node. induction f as [|f IH]; simpl; keeps_tac. Qed.

Lemma keeps_evict_excess hook : keeps (evict_excess hook).
Proof. pose proof keeps_evict_while_over. unfold evict_excess. keeps_tac. Qed.

Lemma keeps_add_node_without_eviction hook p : keeps (add_node_without_eviction hook p).
Proof. pose proof keeps_evict_excess. unfold add_node_without_eviction. keeps_tac. Qed.

Lemma keeps_add_node hook p : keeps (add_node hook p).
Proof.
  pose proof keeps_add_node_without_eviction. pose proof keeps_evict_excess.
  unfold add_node. keeps_tac.
Qed.

Lemma keeps_promote_node p : keeps (promote_node p).
Proof. unfold promote_node. keeps_tac. Qed.

Lemma keeps_get_node k : keeps (get_node k).
Proof. pose proof keeps_promote_node. unfold get_node. keeps_tac. Qed.

Lemma keeps_access_file env p : keeps (access_file env p).
Proof. unfold access_file. keeps_tac. Qed.

Lemma keeps_new_autoload_function k : keeps (new_autoload_function k).
Proof. unfold new_autoload_function. keeps_tac. Qed.

Lemma keeps_rd_opt_node f : keeps (rd_opt_node f).
Proof. unfold rd_opt_node. keeps_tac. Qed.

Lemma keeps_insert_new p rl : keeps (insert_new p rl).
Proof.
  pose proof keeps_add_node. pose proof keeps_add_node_without_eviction.
  unfold insert_new. keeps_tac.
Qed.

Lemma keeps_found_file_at env cmd fpath rl acc : keeps (found_file_at env cmd fpath rl acc).
Proof.
  pose proof keeps_get_node. pose proof keeps_rd_opt_node.
  pose proof keeps_new_autoload_function. pose proof keeps_insert_new.
  unfold found_file_at. keeps_tac.
Qed.

Lemma keeps_search_path env cmd rl dirs : keeps (search_path env cmd rl dirs).
Proof.
  pose proof keeps_access_file. pose proof keeps_found_file_at.
  induction dirs as [|d dirs IH]; simpl; keeps_tac.
Qed.

Lemma keeps_insert_placeholder env cmd rl : keeps (insert_placeholder env cmd rl).
Proof.
  pose proof keeps_get_node. pose proof keeps_new_autoload_function.
  pose proof keeps_insert_new. unfold insert_placeholder. keeps_tac.
Qed.

Lemma keeps_locate env cmd rl reload dirs :
  keeps (locate_file_and_maybe_load_it env cmd rl reload dirs).
Proof.
  pose proof keeps_get_node. pose proof keeps_rd_opt_node. pose proof keeps_search_path.
  pose proof keeps_insert_placeholder. unfold locate_file_and_maybe_load_it. keeps_tac.
  Qed.

(** [is_loading_set.erase(cmd)] undoes [is_loading_set.insert(cmd)]. *)
Lemma set_erase_insert s cmd :
  set_mem s cmd = false -> set_erase (cmd :: s) cmd = s.
Proof.
  unfold set_erase, set_mem. intros H. rewrite filter_cons.
  rewrite String.eqb_refl. case_decide as Hc; [done|]. clear Hc.
  induction s as [|y s IH]; [done|]. simpl in H. apply orb_false_iff in H as [Hy Hs].
  rewrite filter_cons. rewrite String.eqb_sym, Hy. case_decide as Hc; [|done].
  by rewrite IH.
Qed.

(** Lines 218-242 of [load], once the path is settled, for a command that
    is not being loaded. *)
Lemma load_tail env w1 l1 cmd reload :
  lru_inv w1 l1 -> set_mem (is_loading_set w1) cmd = false ->
  exists b w2 l2,
    locate_file_and_maybe_load_it env cmd true reload
      (tokenize_variable_array2 env (env_path_value env))
      (with_is_loading_set (cmd :: is_loading_set w1) w1) = Some (b, w2) /\
    lru_inv w2 l2 /\ path w2 = path w1 /\
    (loading <- gets is_loading_set ;;
     if set_mem loading cmd then emit [CircularWarning cmd] ;;; retM 1%Z else
     modify (fun w => with_is_loading_set (set_insert (is_loading_set w) cmd) w) ;;;
     res <- locate_file_and_maybe_load_it env cmd true reload
              (tokenize_variable_array2 env (env_path_value env)) ;;
     loading' <- gets is_loading_set ;;
     modify (with_is_loading_set (set_erase loading' cmd)) ;;;
     assertM (set_mem loading' cmd) ;;;
     retM (if res then 1%Z else 0%Z)) w1 =
    Some (if b then 1%Z else 0%Z, with_is_loading_set (is_loading_set w1) w2).
Proof.
  intros Hinv Hmem.
  set (w1' := with_is_loading_set (cmd :: is_loading_set w1) w1).
  assert (Hinv1 : lru_inv w1' l1) by (by apply with_is_loading_set_inv).
  destruct (locate_spec env w1' l1 cmd true reload
              (tokenize_variable_array2 env (env_path_value env)) Hinv1)
    as (b & w2 & l2 & evs & Hrun & Hinv2 & _).
  destruct (keeps_locate _ _ _ _ _ _ _ _ Hrun) as (Hp2 & Hl2 & _).
  exists b, w2, l2. split; [done|]. split; [done|]. split; [done|].
  rewrite (bind_Some (gets is_loading_set) _ w1 (is_loading_set w1) w1 eq_refl). cbv beta.
  rewrite Hmem.
  assert (Hins : set_insert (is_loading_set w1) cmd = cmd :: is_loading_set w1)
    by (unfold set_insert; by rewrite Hmem).
  rewrite (bind_Some (modify (fun w => with_is_loading_set (set_insert (is_loading_set w) cmd) w))
             _ w1 tt
             (with_is_loading_set (set_insert (is_loading_set w1) cmd) w1) eq_refl).
  cbv beta. rewrite Hins. fold w1'.
  rewrite (bind_Some _ _ _ _ _ Hrun). cbv beta.
  rewrite (bind_Some (gets is_loading_set) _ w2 (is_loading_set w2) w2 eq_refl). cbv beta.
  rewrite Hl2. simpl is_loading_set. rewrite set_erase_insert by done.
  unfold bindM, modify, assertM, retM. unfold set_mem at 1. simpl.
  rewrite String.eqb_refl. reflexivity.
Qed.

(** [load] with signals not blocked and the path variable set, for a
    command that is not being loaded: the path is settled, then the locate
    step runs with the command marked as loading. *)
Lemma load_spec env w l cmd reload :
  lru_inv w l -> signal_is_blocked env = false -> env_path_value env <> ""%string ->
  set_mem (is_loading_set w) cmd = false ->
  exists w1 l1 b w2 l2,
    lru_inv w1 l1 /\ path w1 = env_path_value env /\
    is_loading_set w1 = is_loading_set w /\ max_node_count w1 = max_node_count w /\
    (path w = env_path_value env -> w1 = w) /\
    (path w <> env_path_value env ->
       node_set w1 = ∅ /\ log w1 = log w ++ evict_events autoload_node_was_evicted (heap w) (rev l)) /\
    locate_file_and_maybe_load_it env cmd true reload
      (tokenize_variable_array2 env (env_path_value env))
      (with_is_loading_set (cmd :: is_loading_set w) w1) = Some (b, w2) /\
    load env cmd reload w =
      Some (if b then 1%Z else 0%Z, with_is_loading_set (is_loading_set w) w2) /\
    path w2 = env_path_value env /\
    lru_inv (with_is_loading_set (is_loading_set w) w2) l2.
Proof.
  intros Hinv Hsig Hpv Hmem. unfold load. rewrite Hsig.
  destruct (String.eqb_spec (env_path_value env) ""%string) as [E|_]; [done|].
  rewrite (bind_Some (gets path) _ w (path w) w eq_refl). cbv beta.
  destruct (String.eqb_spec (env_path_value env) (path w)) as [Ep|Ep]; simpl negb; cbv iota.
  - rewrite (bind_Some (retM tt) _ w tt w eq_refl). cbv beta.
    destruct (load_tail env w l cmd reload Hinv Hmem) as (b & w2 & l2 & Hrun & Hinv2 & Hp2 & Htail).
    exists w, l, b, w2, l2. split; [done|]. split; [done|]. split; [done|]. split; [done|].
    split; [done|]. split; [intros E; by destruct E|]. split; [done|].
    split; [exact Htail|]. split; [congruence|]. by apply with_is_loading_set_inv.
  - destruct (evict_all_nodes_spec _ autoload_hook_payload (with_path (env_path_value env) w) l
      (with_path_inv w l _ Hinv)) as (w1 & Hrun1 & Hinv1 & Hfr1 & Hlog1).
    destruct Hfr1 as (Hmx1 & _ & Hpa1 & Hls1 & _).
    change (is_loading_set (with_path (env_path_value env) w)) with (is_loading_set w) in Hls1.
    rewrite bind_assoc.
    rewrite (bind_Some (modify (with_path (env_path_value env))) _ w tt
               (with_path (env_path_value env) w) eq_refl). cbv beta.
    rewrite (bind_Some _ _ _ _ _ Hrun1). cbv beta.
    assert (Hmem1 : set_mem (is_loading_set w1) cmd = false) by (rewrite Hls1; exact Hmem).
    destruct (load_tail env w1 [] cmd reload Hinv1 Hmem1) as (b & w2 & l2 & Hrun & Hinv2 & Hp2 & Htail).
    rewrite Hls1 in Hrun, Htail. simpl in Hpa1, Hmx1.
    exists w1, [], b, w2, l2. split; [done|]. split; [done|]. split; [done|]. split; [done|].
    split; [intros E; by destruct Ep|]. split.
    { intros _. split; [apply (empty_index _ Hinv1)|]. rewrite Hlog1. reflexivity. }
    split; [exact Hrun|]. split; [exact Htail|]. split; [congruence|].
    by apply with_is_loading_set_inv.
Qed.

(** ** Properties of the autoloader *)

(** C1: removing an entry of the autoloader's cache unregisters its command
    exactly when the entry was NOT loaded: [node_was_evicted] tests
    [! node->is_loaded].  Unloading a loaded command only frees the node. *)
Theorem unload_unregisters_only_unloaded w l k p :
  lru_inv w l -> node_set w !! k = Some p ->
  exists w', unload k w = Some (true, w') /\ node_set w' !! k = None /\
    log w' = log w ++ (if is_loaded (heap w p) then [] else [CommandRemoved k])
                   ++ [NodeDeleted p].
Proof.
  intros Hinv Hk. pose proof Hk as Hk'. apply (inv_index _ _ Hinv) in Hk' as [Hin Hkey].
  apply list_elem_of_split in Hin as (l1 & l2 & ->).
  destruct (evict_node_spec _ autoload_hook_payload w l1 p l2 Hinv) as (Hrun & _ & _ & Hns & Hlog).
  exists (evict_world autoload_node_was_evicted w p). split.
  - unfold unload, evict_node_key.
    rewrite (bind_Some (gets node_set) _ w (node_set w) w eq_refl). cbv beta.
    rewrite Hk. rewrite (bind_Some _ _ _ _ _ Hrun). reflexivity.
  - split; [rewrite Hns, Hkey; apply lookup_delete_eq|].
    rewrite Hlog. unfold autoload_node_was_evicted. rewrite Hkey.
    by destruct (is_loaded (heap w p)).
Qed.

Lemma unload_unregisters_only_unloaded_witness :
  lru_inv (wr_fld (demo_world 4 "foo") 2 (fun n => set_loaded_field n true)) [2] /\
  node_set (wr_fld (demo_world 4 "foo") 2 (fun n => set_loaded_field n true)) !! "foo" = Some 2 /\
  exists w', unload "foo" (wr_fld (demo_world 4 "foo") 2 (fun n => set_loaded_field n true))
               = Some (true, w') /\
    node_set w' !! "foo" = None /\
    log w' = log (wr_fld (demo_world 4 "foo") 2 (fun n => set_loaded_field n true))
             ++ (if is_loaded (heap (wr_fld (demo_world 4 "foo") 2
                                      (fun n => set_loaded_field n true)) 2)
                 then [] else [CommandRemoved "foo"]) ++ [NodeDeleted 2].
Proof.
  assert (Hinv : lru_inv (wr_fld (demo_world 4 "foo") 2 (fun n => set_loaded_field n true)) [2]).
  { apply wr_fld_inv; [apply demo_world_inv; lia|]. intros n. repeat split. }
  assert (Hk : node_set (wr_fld (demo_world 4 "foo") 2 (fun n => set_loaded_field n true))
                 !! "foo" = Some 2) by (vm_compute; reflexivity).
  split; [exact Hinv|]. split; [exact Hk|].
  apply (unload_unregisters_only_unloaded _ [2] "foo" 2 Hinv Hk).
Defined.

(** C2: [add_node_without_eviction] does evict.  On a full cache (as many
    entries as [max_node_count]) it inserts the new entry and then evicts
    the least recently used one, running the eviction hook for it. *)
Theorem add_without_eviction_evicts w l' q p :
  lru_inv w (l' ++ [q]) -> length (l' ++ [q]) = max_node_count w ->
  p ∉ mouth :: l' ++ [q] -> p < next_alloc w -> node_set w !! key (heap w p) = None ->
  exists w', add_node_without_eviction autoload_node_was_evicted p w = Some (true, w') /\
    lru_inv w' (p :: l') /\ node_set w' !! key (heap w q) = None /\
    log w' = log w ++ autoload_node_was_evicted (heap w q) q.
Proof.
  intros Hinv Hlen Hp Hlt Hnone.
  destruct (add_node_without_eviction_spec _ autoload_hook_payload w _ p Hinv Hp Hlt Hnone)
    as (w' & Hrun & Hinv' & Hfr & Hlog).
  rewrite app_comm_cons, <- Hlen in Hinv', Hlog.
  rewrite take_app_length' in Hinv' by (rewrite length_app; simpl; unfold ptr in *; lia).
  rewrite drop_app_length' in Hlog by (rewrite length_app; simpl; unfold ptr in *; lia).
  simpl in Hlog. rewrite app_nil_r in Hlog.
  exists w'. split; [done|]. split; [done|]. split; [|done].
  destruct Hfr as (_ & _ & _ & _ & Hpl).
  pose proof (inv_nodup _ _ Hinv) as Hnd. apply NoDup_cons in Hnd as [_ Hnd].
  apply NoDup_app in Hnd as (_ & Hq & _).
  assert (Hkq : node_set w !! key (heap w q) = Some q)
    by (apply (inv_index _ _ Hinv); set_solver).
  destruct (node_set w' !! key (heap w q)) as [r|] eqn:E; [|done].
  apply (inv_index _ _ Hinv') in E as [Hr Hkr].
  assert (Hra : r < next_alloc w).
  { apply elem_of_cons in Hr as [->|Hr]; [done|]. apply (inv_alloc _ _ Hinv). set_solver. }
  rewrite (payload_key _ _ (Hpl r Hra)) in Hkr.
  apply elem_of_cons in Hr as [->|Hr]; [congruence|].
  assert (Hkr' : node_set w !! key (heap w q) = Some r)
    by (rewrite <- Hkr; apply (inv_index _ _ Hinv); set_solver).
  rewrite Hkq in Hkr'. injection Hkr' as ->. exfalso. apply (Hq r Hr). set_solver.
Qed.

Lemma add_without_eviction_evicts_witness :
  lru_inv (alloc_world (demo_world 1 "foo") "bar") ([] ++ [2]) /\
  length ([] ++ [2]) = max_node_count (alloc_world (demo_world 1 "foo") "bar") /\
  exists w', add_node_without_eviction autoload_node_was_evicted 3
               (alloc_world (demo_world 1 "foo") "bar") = Some (true, w') /\
    lru_inv w' [3] /\
    node_set w' !! key (heap (alloc_world (demo_world 1 "foo") "bar") 2) = None /\
    log w' = log (alloc_world (demo_world 1 "foo") "bar") ++
             autoload_node_was_evicted (heap (alloc_world (demo_world 1 "foo") "bar") 2) 2.
Proof.
  assert (Hinv : lru_inv (alloc_world (demo_world 1 "foo") "bar") ([] ++ [2])).
  { apply (alloc_spec autoload_node_was_evicted autoload_hook_payload _ [2] "bar").
    apply demo_world_inv. lia. }
  assert (Hlen : length ([] ++ [2]) = max_node_count (alloc_world (demo_world 1 "foo") "bar"))
    by (vm_compute; reflexivity).
  split; [exact Hinv|]. split; [exact Hlen|].
  apply (add_without_eviction_evicts _ [] 2 3 Hinv Hlen).
  - unfold mouth. set_solver.
  - vm_compute. lia.
  - vm_compute. reflexivity.
Defined.

(** C3: the placeholder left for a name that resolves to nothing never
    answers [load].  When signals are not blocked and the path variable is
    set, [load] of a command that is not being loaded, has no entry, no
    builtin script and no accessible file on the path probes every
    directory of the path, returns 0 and leaves a placeholder entry
    (unloaded, checked now).  A second [load] at the same time, with any
    [reload], is not answered from that placeholder: it probes every
    directory again and returns 0. *)
Theorem load_reprobes_unknown_command env w l cmd reload1 reload2 :
  lru_inv w l -> signal_is_blocked env = false -> env_path_value env <> ""%string ->
  set_mem (is_loading_set w) cmd = false -> node_set w !! cmd = None ->
  0 < max_node_count w -> matching_builtin_script env cmd = None ->
  forallb (fun d => negb (probe_ok env (candidate cmd d)))
    (tokenize_variable_array2 env (env_path_value env)) = true ->
  exists w1 w2 p evs1 evs2,
    load env cmd reload1 w = Some (0%Z, w1) /\
    log w1 = log w ++ evs1 ++ probes cmd (tokenize_variable_array2 env (env_path_value env))
                   ++ evs2 /\
    evict_only evs1 /\ evict_only evs2 /\
    node_set w1 !! cmd = Some p /\ is_placeholder (heap w1 p) = true /\
    is_loaded (heap w1 p) = false /\ last_checked (access (heap w1 p)) = now env /\
    load env cmd reload2 w1 = Some (0%Z, w2) /\
    log w2 = log w1 ++ probes cmd (tokenize_variable_array2 env (env_path_value env)).
Proof.
  intros Hinv Hsig Hpv Hmem Hnone Hmax Hm Hall.
  destruct (load_spec env w l cmd reload1 Hinv Hsig Hpv Hmem)
    as (w1 & l1 & b & w2 & l2 & Hinv1 & Hp1 & Hls1 & Hmx1 & Hsame & Hdiff & Hloc & Hload & Hp2 & Hinv2).
  set (dirs := tokenize_variable_array2 env (env_path_value env)) in *.
  assert (Hpre : node_set w1 !! cmd = None /\
                 exists evs1, log w1 = log w ++ evs1 /\ evict_only evs1).
  { destruct (decide (path w = env_path_value env)) as [E|E].
    - rewrite (Hsame E). split; [done|]. exists []. split; [by rewrite app_nil_r|constructor].
    - destruct (Hdiff E) as [Hns Hlg]. rewrite Hns. split; [apply lookup_empty|].
      eexists. split; [exact Hlg|apply evict_events_only]. }
  destruct Hpre as (Hn1 & evs1 & Hlog1 & Hev1).
  set (w1' := with_is_loading_set (cmd :: is_loading_set w) w1) in *.
  assert (Hinv1' : lru_inv w1' l1) by (by apply with_is_loading_set_inv).
  destruct (locate_not_found_absent env w1' l1 cmd true reload1 dirs Hinv1' Hn1 Hm Hall)
    as (w3 & evs2 & Hrun3 & Hinv3 & Hlog3 & Hev2 & Hpay3 & Hin3).
  rewrite Hloc in Hrun3. injection Hrun3 as -> <-.
  assert (Hmx : 0 < max_node_count w1') by (change (max_node_count w1') with (max_node_count w1); lia).
  specialize (Hin3 Hmx).
  unfold payload in Hpay3. injection Hpay3 as Hk Ha Hl Hph.
  set (W := with_is_loading_set (is_loading_set w) w2) in *.
  assert (HmemW : set_mem (is_loading_set W) cmd = false) by exact Hmem.
  destruct (load_spec env W l2 cmd reload2 Hinv2 Hsig Hpv HmemW)
    as (w4 & l4 & b' & w5 & l5 & Hinv4 & _ & _ & _ & Hsame' & _ & Hloc' & Hload' & _).
  assert (HpW : path W = env_path_value env) by exact Hp2.
  rewrite (Hsame' HpW) in Hloc', Hinv4. fold dirs in Hloc'.
  set (W' := with_is_loading_set (cmd :: is_loading_set W) W) in *.
  assert (HinvW' : lru_inv W' l4) by (by apply with_is_loading_set_inv).
  assert (HinW' : node_set W' !! cmd = Some (next_alloc w1')) by exact Hin3.
  assert (Hcu : can_use_cached env true reload2 (Some (heap W' (next_alloc w1'))) = false).
  { assert (Hl' : is_loaded (heap W' (next_alloc w1')) = false) by exact Hl.
    unfold can_use_cached. rewrite Hl'. by destruct (negb (negb reload2) && _). }
  destruct (locate_not_found_present env W' l4 cmd true reload2 dirs (next_alloc w1')
              HinvW' HinW' Hcu Hm Hall)
    as (w6 & l6 & Hrun6 & _ & _ & _ & _ & Hlog6 & _ & _).
  rewrite Hloc' in Hrun6. injection Hrun6 as -> <-.
  exists W, (with_is_loading_set (is_loading_set W) w5), (next_alloc w1'), evs1, evs2.
  split; [exact Hload|].
  split.
  { change (log W) with (log w2). rewrite Hlog3. change (log w1') with (log w1).
    rewrite Hlog1, <- app_assoc. reflexivity. }
  split; [done|]. split; [done|]. split; [exact Hin3|].
  split; [exact Hph|]. split; [exact Hl|].
  split; [assert (Ha' : access (heap W (next_alloc w1')) = mkAccess 0 (now env) false false 0)
             by exact Ha; rewrite Ha'; reflexivity|].
  split; [exact Hload'|].
  change (log (with_is_loading_set (is_loading_set W) w5)) with (log w5).
  rewrite Hlog6. reflexivity.
Qed.

Lemma load_reprobes_unknown_command_witness :
  exists w1 w2 p evs1 evs2,
    load demo_env "nope" false (init_world 4) = Some (0%Z, w1) /\
    log w1 = log (init_world 4) ++ evs1 ++ probes "nope" ["/p"] ++ evs2 /\
    evict_only evs1 /\ evict_only evs2 /\
    node_set w1 !! "nope" = Some p /\ is_placeholder (heap w1 p) = true /\
    is_loaded (heap w1 p) = false /\ last_checked (access (heap w1 p)) = now demo_env /\
    load demo_env "nope" false w1 = Some (0%Z, w2) /\
    log w2 = log w1 ++ probes "nope" ["/p"].
Proof.
  apply (load_reprobes_unknown_command demo_env (init_world 4) [] "nope" false false).
  - apply init_world_inv.
  - reflexivity.
  - discriminate.
  - reflexivity.
  - reflexivity.
  - vm_compute. lia.
  - vm_compute. reflexivity.
  - vm_compute. reflexivity.
Defined.

(** C4: a resolution with [really_load] that is not answered by the cached
    entry and finds a builtin script runs that script, yet returns false:
    [reloaded] is only set on the file branch.  It probes nothing and
    inserts nothing. *)
Theorem builtin_load_reports_false env w l cmd reload dirs bi :
  lru_inv w l -> can_use_cached env true reload (cached_entry w cmd) = false ->
  matching_builtin_script env cmd = Some bi ->
  exists w', locate_file_and_maybe_load_it env cmd true reload dirs w = Some (false, w') /\
    log w' = log w ++ [SubshellRun (bdef bi)] /\ node_set w' = node_set w.
Proof.
  intros Hinv Hc Hm.
  destruct (locate_spec env w l cmd true reload dirs Hinv)
    as (b & w' & l' & evs & Hrun & _ & Hlog & _ & Hcn).
  specialize (Hcn Hc). rewrite Hm in Hcn. destruct Hcn as (Hb & Hns & Hevs).
  subst b evs. exists w'. done.
Qed.

Lemma builtin_load_reports_false_witness :
  exists w', locate_file_and_maybe_load_it demo_env "abbr" true false ["/p"] (init_world 4)
               = Some (false, w') /\
    log w' = log (init_world 4) ++ [SubshellRun "abbr-body"] /\
    node_set w' = node_set (init_world 4).
Proof.
  apply (builtin_load_reports_false demo_env (init_world 4) [] "abbr" false ["/p"]
           (mkBuiltin "abbr" "abbr-body")).
  - apply init_world_inv.
  - reflexivity.
  - vm_compute. reflexivity.
Defined.

(** C5: a probing resolution ([really_load = false], so nothing is to be
    reloaded) that finds a file for a new name inserts it with
    [add_node_without_eviction], which on a full cache evicts the least
    recently used entry; that entry was never loaded, so its command is
    unregistered. *)
Lemma probe_of_found_file_unregisters :
  match (_ <- locate_file_and_maybe_load_it demo_env "foo" false false ["/p"] ;;
         locate_file_and_maybe_load_it demo_env "bar" false false ["/p"]) (init_world 1) with
  | Some (b, w) =>
      b = true /\
      log w = [FileProbed "/p/foo.fish"; FileProbed "/p/bar.fish";
               CommandRemoved "foo"; NodeDeleted 2]
  | None => False
  end.
Proof. vm_compute. split; reflexivity. Qed.

(** C6: from an empty cache, after every sequence of mutating operations
    (insertions with and without eviction, lookups, removals by key,
    removal of all entries), and so after each call of such a sequence:
    the entries form one circular list through [mouth] with no repetition,
    the index maps each key to exactly the listed entry with that key,
    [node_count] is the length of the list and the size of the index, and
    [node_count <= max_node_count]. *)
Theorem cache_ops_keep_invariant hook
    (Hhook : forall n1 n2 p, payload n1 = payload n2 -> hook n1 p = hook n2 p)
    (cap : nat) (ops : list cache_op) :
  exists w l, run_ops hook ops (init_world cap) = Some (tt, w) /\ lru_inv w l /\
    node_count w = size (node_set w) /\ node_count w <= max_node_count w.
Proof.
  destruct (run_ops_spec hook Hhook (init_world cap) [] ops (init_world_inv cap)
    ltac:(unfold within_capacity; simpl; lia)) as (w & l & Hrun & Hinv & Hcap).
  exists w, l. split; [done|]. split; [done|]. split; [|exact Hcap].
  rewrite (inv_count _ _ Hinv), (inv_size _ _ Hinv). done.
Qed.

Lemma cache_ops_keep_invariant_witness :
  exists w l,
    run_ops autoload_node_was_evicted
      [OpAdd "a"; OpAddNoEvict "b"; OpGet "a"; OpAdd "c"; OpEvict "a"; OpEvictAll; OpAdd "d"]
      (init_world 1) = Some (tt, w) /\ lru_inv w l /\
    node_count w = size (node_set w) /\ node_count w <= max_node_count w.
Proof. apply (cache_ops_keep_invariant _ autoload_hook_payload). Defined.

(** C7: the cache is least-recently-used.  A lookup of a present key moves
    its entry to the front of the recency list; an insertion puts the new
    entry at the front and evicts from the back of the list, running the
    hook for each evicted entry from the least recently used on.  With
    capacity [N], inserting [N] distinct keys evicts nothing and keeps the
    first key after each insertion; inserting an [N+1]th distinct key then
    evicts exactly the first key, once, and keeps all the others. *)
Theorem lru_eviction_order hook
    (Hhook : forall n1 n2 p, payload n1 = payload n2 -> hook n1 p = hook n2 p)
    (N : nat) (k1 k' : string) (ks : list string) :
  length (k1 :: ks) = N -> NoDup (k' :: k1 :: ks) ->
  (forall w l k p, lru_inv w l -> node_set w !! k = Some p ->
     exists l1 l2 w', l = l1 ++ p :: l2 /\ get_node k w = Some (Some p, w') /\
       lru_inv w' (p :: l1 ++ l2) /\ node_set w' = node_set w) /\
  (forall w l p, lru_inv w l -> p ∉ mouth :: l -> p < next_alloc w ->
     node_set w !! key (heap w p) = None ->
     exists w', add_node hook p w = Some (true, w') /\
       lru_inv w' (take (max_node_count w) (p :: l)) /\
       log w' = log w ++ evict_events hook (heap w) (rev (drop (max_node_count w) (p :: l)))) /\
  (forall j, 0 < j <= N ->
     exists wj, run_ops hook (map OpAdd (take j (k1 :: ks))) (init_world N) = Some (tt, wj) /\
       log wj = [] /\ is_Some (node_set wj !! k1)) /\
  (exists wN p1 ps, run_ops hook (map OpAdd (k1 :: ks)) (init_world N) = Some (tt, wN) /\
     lru_inv wN (ps ++ [p1]) /\ key (heap wN p1) = k1 /\ log wN = [] /\
     exists w', run_op hook (OpAdd k') wN = Some (tt, w') /\
       log w' = hook (heap wN p1) p1 /\ node_set w' !! k1 = None /\
       (forall k, k ∈ k' :: ks -> is_Some (node_set w' !! k))).
Proof.
  intros Hlen Hnd. split; [|split; [|split]].
  - intros w l k p Hinv Hk.
    destruct (get_node_spec hook Hhook w l k p Hinv Hk) as (l1 & l2 & -> & Hget & Hinv1 & _).
    exists l1, l2, (with_heap (link_front_heap (unlink_heap (heap w) p) p) w). split; [done|]. split; [exact Hget|]. split; [exact Hinv1|done].
  - intros w l p Hinv Hp Hlt Hnone.
    destruct (add_node_spec hook Hhook w l p Hinv Hp Hlt Hnone) as (w' & Hrun & Hinv' & _ & Hlog).
    exists w'. done.
  - intros j Hj. pose proof Hnd as Hnd1. apply NoDup_cons in Hnd1 as [_ Hnd1].
    destruct (prefix_adds_keep_first hook Hhook N k1 ks j Hlen Hnd1 ltac:(lia))
      as (wj & Hrun & Hlog & Hk1).
    exists wj. split; [done|]. split; [done|]. apply Hk1. lia.
  - apply (adds_evict_first hook Hhook N k1 ks k' Hlen Hnd).
Qed.

Lemma lru_eviction_order_witness :
  length ["a"] = 1 /\ NoDup ["b"; "a"] /\
  (forall j, 0 < j <= 1 ->
     exists wj, run_ops autoload_node_was_evicted (map OpAdd (take j ["a"])) (init_world 1)
                  = Some (tt, wj) /\
       log wj = [] /\ is_Some (node_set wj !! "a")) /\
  (exists wN p1 ps, run_ops autoload_node_was_evicted (map OpAdd ["a"]) (init_world 1)
                      = Some (tt, wN) /\
     lru_inv wN (ps ++ [p1]) /\ key (heap wN p1) = "a" /\ log wN = [] /\
     exists w', run_op autoload_node_was_evicted (OpAdd "b") wN = Some (tt, w') /\
       log w' = autoload_node_was_evicted (heap wN p1) p1 /\ node_set w' !! "a" = None /\
       (forall k, k ∈ ["b"] -> is_Some (node_set w' !! k))).
Proof.
  assert (Hlen : length ["a"] = 1) by reflexivity.
  assert (Hnd : NoDup ["b"; "a"]) by (repeat constructor; set_solver).
  split; [exact Hlen|]. split; [exact Hnd|].
  apply (lru_eviction_order _ autoload_hook_payload 1 "a" "b" [] Hlen Hnd).
Defined.




(** C9: when the (sorted) builtin table has a script named [cmd], a
    resolution of [cmd] probes no file, whatever the file system holds, and
    inserts no entry; unless the cached entry answers, it takes the
    builtin's script, running it when [really_load]. *)
Theorem builtin_takes_precedence env w l cmd rl reload dirs :
  lru_inv w l -> names_sorted (builtin_scripts env) ->
  (exists e, e ∈ builtin_scripts env /\ bname e = cmd) ->
  exists b w' evs,
    locate_file_and_maybe_load_it env cmd rl reload dirs w = Some (b, w') /\
    log w' = log w ++ evs /\ Forall (fun e => is_probe e = false) evs /\
    node_set w' = node_set w /\
    (can_use_cached env rl reload (cached_entry w cmd) = false ->
       exists e, e ∈ builtin_scripts env /\ bname e = cmd /\ b = negb rl /\
         evs = (if rl then [SubshellRun (bdef e)] else [])).
Proof.
  intros Hinv Hs Hex.
  destruct (matching_builtin_script_found env cmd Hs Hex) as (e & Hm & He & Hname).
  destruct (locate_spec env w l cmd rl reload dirs Hinv)
    as (b & w' & l' & evs & Hrun & _ & Hlog & Hcy & Hcn).
  exists b, w', evs. split; [done|]. split; [done|].
  destruct (can_use_cached env rl reload (cached_entry w cmd)) eqn:Hc.
  - destruct (Hcy eq_refl) as (-> & Hns & _).
    split; [constructor|]. split; [done|]. discriminate.
  - specialize (Hcn eq_refl). rewrite Hm in Hcn. destruct Hcn as (Hb & Hns & Hevs).
    split; [rewrite Hevs; destruct rl; repeat constructor|]. split; [done|].
    intros _. exists e. done.
Qed.

Lemma builtin_takes_precedence_witness :
  exists b w' evs,
    locate_file_and_maybe_load_it demo_env "abbr" true false ["/p"] (init_world 4)
      = Some (b, w') /\
    log w' = log (init_world 4) ++ evs /\ Forall (fun e => is_probe e = false) evs /\
    node_set w' = node_set (init_world 4) /\
    (can_use_cached demo_env true false (cached_entry (init_world 4) "abbr") = false ->
       exists e, e ∈ builtin_scripts demo_env /\ bname e = "abbr" /\ b = negb true /\
         evs = (if true then [SubshellRun (bdef e)] else [])).
Proof.
  apply (builtin_takes_precedence demo_env (init_world 4) []).
  - apply init_world_inv.
  - apply demo_names_sorted.
  - exists (mkBuiltin "abbr" "abbr-body"). split; [simpl; set_solver|reflexivity].
Defined.

(** C10: when a resolution finds no builtin and no accessible file and an
    entry for [cmd] is in the cache, no entry is created or replaced (the
    index, the allocation counter and [node_count] are unchanged) and of
    the entry only [access.last_checked] changes, to the current time; its
    key, [is_loaded], [is_placeholder], modification time, accessibility,
    staleness and error are kept, and no other entry changes. *)
Theorem not_found_touches_existing_entry env w l cmd rl reload dirs p :
  lru_inv w l -> node_set w !! cmd = Some p ->
  can_use_cached env rl reload (Some (heap w p)) = false ->
  matching_builtin_script env cmd = None ->
  forallb (fun d => negb (probe_ok env (candidate cmd d))) dirs = true ->
  exists w', locate_file_and_maybe_load_it env cmd rl reload dirs w = Some (false, w') /\
    node_set w' = node_set w /\ next_alloc w' = next_alloc w /\
    node_count w' = node_count w /\ log w' = log w ++ probes cmd dirs /\
    (forall q, q <> p -> payload (heap w' q) = payload (heap w q)) /\
    key (heap w' p) = key (heap w p) /\ is_loaded (heap w' p) = is_loaded (heap w p) /\
    is_placeholder (heap w' p) = is_placeholder (heap w p) /\
    access (heap w' p) = mkAccess (mod_time (access (heap w p))) (now env)
                           (accessible (access (heap w p))) (stale (access (heap w p)))
                           (error (access (heap w p))).
Proof.
  intros Hinv Hp Hc Hm Hall.
  destruct (locate_not_found_present env w l cmd rl reload dirs p Hinv Hp Hc Hm Hall)
    as (w' & l' & Hrun & _ & Hns & Hna & Hcnt & Hlog & Hq & Hpp).
  unfold payload in Hpp. injection Hpp as Hk Ha Hl Hph.
  exists w'. do 9 (split; [done|]). exact Ha.
Qed.

Lemma not_found_touches_existing_entry_witness :
  exists w', locate_file_and_maybe_load_it demo_env "nope" true false ["/p"]
               (demo_world 4 "nope") = Some (false, w') /\
    node_set w' = node_set (demo_world 4 "nope") /\
    next_alloc w' = next_alloc (demo_world 4 "nope") /\
    node_count w' = node_count (demo_world 4 "nope") /\
    log w' = log (demo_world 4 "nope") ++ probes "nope" ["/p"] /\
    (forall q, q <> 2 -> payload (heap w' q) = payload (heap (demo_world 4 "nope") q)) /\
    key (heap w' 2) = key (heap (demo_world 4 "nope") 2) /\
    is_loaded (heap w' 2) = is_loaded (heap (demo_world 4 "nope") 2) /\
    is_placeholder (heap w' 2) = is_placeholder (heap (demo_world 4 "nope") 2) /\
    access (heap w' 2) = mkAccess (mod_time (access (heap (demo_world 4 "nope") 2))) 100
                           (accessible (access (heap (demo_world 4 "nope") 2)))
                           (stale (access (heap (demo_world 4 "nope") 2)))
                           (error (access (heap (demo_world 4 "nope") 2))).
Proof.
  apply (not_found_touches_existing_entry demo_env (demo_world 4 "nope") [2]).
  - apply demo_world_inv. lia.
  - vm_compute. reflexivity.
  - vm_compute. reflexivity.
  - vm_compute. reflexivity.
  - vm_compute. reflexivity.
Defined.

(** ** Further properties of the cache and the autoloader *)


(** X11: [can_load] with no path variable, or an empty one, returns false
    and changes nothing. Otherwise it never runs a script and never changes
    the path or the in-progress set. Any cached entry answers it, placeholder
    or stale, with no effect. With no entry, the answer is whether a builtin
    script exists or some candidate file is accessible. *)
Theorem can_load_never_loads env w l cmd s :
  lru_inv w l -> s <> ""%string ->
  can_load env cmd None w = Some (false, w) /\
  can_load env cmd (Some ""%string) w = Some (false, w) /\
  exists b w' l' evs,
    can_load env cmd (Some s) w = Some (b, w') /\ lru_inv w' l' /\
    log w' = log w ++ evs /\ Forall (fun e => is_exec e = false) evs /\
    path w' = path w /\ is_loading_set w' = is_loading_set w /\
    (forall p, node_set w !! cmd = Some p -> b = accessible (access (heap w p)) /\ evs = []) /\
    (node_set w !! cmd = None ->
       b = match matching_builtin_script env cmd with Some _ => true | None => false end
           || existsb (fun d => probe_ok env (candidate cmd d)) (tokenize_variable_array2 env s)).
Proof.
  intros Hinv Hs. split; [done|]. split; [done|].
  assert (Hcl : can_load env cmd (Some s) =
                locate_file_and_maybe_load_it env cmd false false (tokenize_variable_array2 env s))
    by (destruct s; [done|reflexivity]).
  rewrite Hcl.
  destruct (locate_spec env w l cmd false false (tokenize_variable_array2 env s) Hinv)
    as (b & w' & l' & evs & Hrun & Hinv' & Hlog & Hcached & Hnot).
  destruct (keeps_locate _ _ _ _ _ _ _ _ Hrun) as (Hp & Hl & _).
  exists b, w', l', evs. split; [done|]. split; [done|]. split; [done|].
  unfold cached_entry in Hcached, Hnot.
  destruct (node_set w !! cmd) as [p|] eqn:Hp0.
  - destruct (Hcached eq_refl) as (-> & _ & Hb).
    split; [constructor|]. split; [done|]. split; [done|].
    split; [|intros; discriminate]. intros q Hq. injection Hq as <-. done.
  - specialize (Hnot eq_refl).
    destruct (matching_builtin_script env cmd) as [bi|].
    + destruct Hnot as (Hb & _ & ->). split; [constructor|]. split; [done|]. split; [done|].
      split; [intros; discriminate|]. intros _. done.
    + destruct Hnot as (found & reloaded & evs1 & src & Hf & _ & Hevs1 & -> & Hb).
      simpl andb in *. rewrite app_nil_r. split; [done|]. split; [done|]. split; [done|].
      split; [intros; discriminate|]. intros _. simpl. congruence.
Qed.

(** X8: the path search stops at the first accessible candidate. It probes
    the directories in order, up to and including that one and none after.
    It reports the file found, and generates the script [". " + escaped path]
    exactly when it (re)loads. *)
Theorem search_path_first_match env w l cmd rl pre d post mt :
  lru_inv w l ->
  forallb (fun d => negb (probe_ok env (candidate cmd d))) pre = true ->
  filesystem env (candidate cmd d) = StatOk mt None ->
  exists (reloaded : bool) w' l' evs,
    search_path env cmd rl (pre ++ d :: post) w =
      Some ((true, if reloaded then Some (". " ++ escape_string env (candidate cmd d))%string
                   else None, reloaded), w') /\
    lru_inv w' l' /\
    log w' = log w ++ probes cmd (pre ++ [d]) ++ evs /\ evict_only evs /\
    reloaded = rl && match node_set w !! cmd with
                     | None => true
                     | Some p => Z.eqb (mod_time (access (heap w p))) mt
                                 || negb (is_loaded (heap w p))
                     end.
Proof.
  revert w l. induction pre as [|d0 pre IH]; intros w l Hinv Hpre Hfs; simpl.
  - set (w1 := with_log (log w ++ [FileProbed (candidate cmd d)]) w).
    assert (Ha : access_file env (candidate cmd d) w =
                 Some (mkAccess mt (now env) true false 0, w1))
      by (unfold access_file, emit, modify, bindM, retM; rewrite Hfs; reflexivity).
    rewrite (bind_Some _ _ _ _ _ Ha). cbv beta. cbn [accessible].
    destruct (found_file_at_spec env w1 l cmd (candidate cmd d) rl
                (mkAccess mt (now env) true false 0) (with_log_inv _ _ _ Hinv))
      as (need & w' & l' & Hrun & Hinv' & Hneed & evs & Hlog & Hevs).
    rewrite (bind_Some _ _ _ _ _ Hrun).
    exists need, w', l', evs. split; [reflexivity|]. split; [done|].
    split; [rewrite Hlog; simpl; by rewrite <- app_assoc|]. split; [done|].
    exact Hneed.
  - simpl in Hpre. apply andb_prop in Hpre as [Hd0 Hpre].
    destruct (access_file_spec env (candidate cmd d0) w) as (a & Ha & Hacc).
    rewrite (bind_Some _ _ _ _ _ Ha). cbv beta.
    rewrite Hacc. apply negb_true_iff in Hd0. rewrite Hd0.
    destruct (IH _ l (with_log_inv _ _ (log w ++ [FileProbed (candidate cmd d0)]) Hinv) Hpre Hfs)
      as (reloaded & w' & l' & evs & Hrun & Hinv' & Hlog & Hevs & Hr).
    exists reloaded, w', l', evs. split; [exact Hrun|]. split; [done|].
    split; [rewrite Hlog; simpl; by rewrite <- app_assoc|]. split; [done|].
    exact Hr.
Qed.

(** X1: [get_node] returns the node the index holds for the key. It changes
    no entry's fields, the index, the count or the log. A miss changes
    nothing; a hit moves the node to the front of the recency order. *)
Theorem get_node_lookup_promotes w l k :
  lru_inv w l ->
  exists w' l', get_node k w = Some (node_set w !! k, w') /\ lru_inv w' l' /\
    node_set w' = node_set w /\ node_count w' = node_count w /\ log w' = log w /\
    (forall q, payload (heap w' q) = payload (heap w q)) /\
    (node_set w !! k = None -> w' = w) /\
    (forall p, node_set w !! k = Some p ->
       key (heap w p) = k /\ exists l1 l2, l = l1 ++ p :: l2 /\ l' = p :: l1 ++ l2).
Proof.
  intros Hinv. destruct (node_set w !! k) as [p|] eqn:Hk.
  - destruct (get_node_spec _ autoload_hook_payload w l k p Hinv Hk)
      as (l1 & l2 & -> & Hget & Hinv1 & Hpay).
    pose proof (proj1 (inv_index _ _ Hinv k p) Hk) as [_ Hkey].
    eexists _, (p :: l1 ++ l2). split; [exact Hget|]. split; [exact Hinv1|].
    split; [done|]. split; [done|]. split; [done|]. split; [exact Hpay|].
    split; [discriminate|]. intros q Hq. injection Hq as <-.
    split; [done|]. by exists l1, l2.
  - exists w, l. split; [by apply get_node_None|]. split; [done|].
    do 5 (split; [done|]). discriminate.
Qed.

Section AddLookup.

Variable hook : node -> ptr -> list event.
Hypothesis hook_payload : forall n1 n2 p, payload n1 = payload n2 -> hook n1 p = hook n2 p.

(** X2: [add_node] refuses a node whose key is already cached: it returns
    false and changes nothing. A new key is inserted and the cache never ends
    above its capacity. Afterwards the key maps to the node, unless the
    capacity is 0, which leaves the cache empty. With room, nothing is
    evicted. *)
Theorem add_node_insert_lookup w l p :
  lru_inv w l -> p ∉ mouth :: l -> p < next_alloc w ->
  (forall q, node_set w !! key (heap w p) = Some q -> add_node hook p w = Some (false, w)) /\
  (node_set w !! key (heap w p) = None ->
   exists w', add_node hook p w = Some (true, w') /\
     node_count w' <= max_node_count w' /\
     node_set w' !! key (heap w p) = (if Nat.ltb 0 (max_node_count w) then Some p else None) /\
     (max_node_count w = 0 -> node_set w' = ∅) /\
     (length l < max_node_count w ->
        node_set w' = <[key (heap w p) := p]> (node_set w) /\ log w' = log w)).
Proof.
  intros Hinv Hp Hlt. assert (Hpm : p <> mouth) by set_solver. split.
  - intros q Hq. exact (proj2 (add_present hook w p q Hpm Hq)).
  - intros Hnone.
    destruct (add_node_spec hook hook_payload w l p Hinv Hp Hlt Hnone)
      as (w' & Hrun & Hinv' & Hfr & Hlog).
    destruct Hfr as (Hm & _ & _ & _ & Hpl).
    assert (Hkey : forall q, q ∈ p :: l -> key (heap w' q) = key (heap w q)).
    { intros q Hq. assert (Hq' : q < next_alloc w).
      { apply elem_of_cons in Hq as [->|Hq]; [done|]. by apply (inv_elem_alloc hook hook_payload w l). }
      pose proof (Hpl q Hq') as Hpq. unfold payload in Hpq. congruence. }
    exists w'. split; [done|]. split.
    { rewrite (inv_count _ _ Hinv'), Hm, length_take. lia. }
    split; [|split].
    + destruct (Nat.ltb_spec 0 (max_node_count w)) as [Hpos|Hz].
      * apply (inv_index _ _ Hinv'). split.
        -- destruct (max_node_count w) as [|m]; [lia|]. simpl. set_solver.
        -- apply Hkey. set_solver.
      * destruct (node_set w' !! key (heap w p)) as [q|] eqn:Hq; [|done].
        apply (inv_index _ _ Hinv') in Hq as [Hq _].
        assert (max_node_count w = 0) as Hz0 by lia. rewrite Hz0 in Hq. set_solver.
    + intros Hz. rewrite Hz in Hinv'. apply empty_index. exact Hinv'.
    + intros Hroom. rewrite (take_ge (p :: l)) in Hinv' by (unfold ptr in *; simpl; lia).
      split.
      * apply map_eq. intros k. apply option_eq. intros q.
        rewrite (inv_index _ _ Hinv'), lookup_insert_Some, (inv_index _ _ Hinv).
        split.
        -- intros [Hq Hk]. rewrite Hkey in Hk by done.
           apply elem_of_cons in Hq as [->|Hq]; [by left|right].
           split; [|done]. intros Heq. subst k.
           assert (Hs : node_set w !! key (heap w p) = Some q)
             by (apply (inv_index _ _ Hinv); rewrite Heq; done).
           congruence.
        -- intros [[Hk <-]|[Hne [Hq Hk]]].
           ++ split; [set_solver|]. rewrite Hkey by set_solver. done.
           ++ split; [set_solver|]. rewrite Hkey by set_solver. done.
      * rewrite Hlog, (drop_ge (p :: l)) by (unfold ptr in *; simpl; lia). simpl. apply app_nil_r.
Qed.

(** X3: [evict_last_node] removes the least recently used entry. It drops
    that entry's key and calls the eviction hook on it. On an empty cache
    [mouth.prev] is the mouth itself, and the assertion of [evict_node]
    fails. *)
Theorem evict_last_node_lru w l :
  lru_inv w l ->
  (l = [] -> evict_last_node hook w = None) /\
  (forall l1 x, l = l1 ++ [x] ->
     exists w', evict_last_node hook w = Some (tt, w') /\ lru_inv w' l1 /\
       node_set w' = delete (key (heap w x)) (node_set w) /\
       node_count w' = node_count w - 1 /\
       log w' = log w ++ hook (heap w x) x).
Proof.
  intros Hinv. pose proof (ring_prev_mouth _ _ (inv_ring _ _ Hinv)) as Hprev.
  split.
  - intros ->. simpl in Hprev. rewrite evict_last_node_eq, Hprev.
    unfold evict_node, assertM, bindM. reflexivity.
  - intros l1 x ->. rewrite last_snoc in Hprev.
    destruct (evict_node_spec hook hook_payload w l1 x [] Hinv)
      as (Hrun & Hinv' & _ & Hns & Hlog).
    exists (evict_world hook w x). rewrite evict_last_node_eq, Hprev.
    split; [exact Hrun|]. split; [by rewrite app_nil_r in Hinv'|].
    split; [done|]. split; [|done]. simpl. lia.
Qed.

End AddLookup.

(** X4: [unload] returns whether the command was cached and removes its key
    only. A later lookup of the command misses. Unloading a command that is
    not cached changes nothing. *)
Theorem unload_then_lookup_misses w l cmd :
  lru_inv w l ->
  exists w' l', unload cmd w =
      Some (match node_set w !! cmd with Some _ => true | None => false end, w') /\
    lru_inv w' l' /\ node_set w' = delete cmd (node_set w) /\
    get_node cmd w' = Some (None, w') /\
    (node_set w !! cmd = None -> w' = w).
Proof.
  intros Hinv. destruct (node_set w !! cmd) as [p|] eqn:Hp.
  - pose proof (proj1 (inv_index _ _ Hinv cmd p) Hp) as [Hin Hkey].
    apply list_elem_of_split in Hin as (l1 & l2 & ->).
    destruct (evict_node_spec _ autoload_hook_payload w l1 p l2 Hinv)
      as (Hrun & Hinv' & _ & Hns & _).
    exists (evict_world autoload_node_was_evicted w p), (l1 ++ l2).
    split.
    { unfold unload, evict_node_key. rewrite (bind_Some (gets node_set) _ w (node_set w) w eq_refl).
      cbv beta. rewrite Hp. rewrite (bind_Some _ _ _ _ _ Hrun). reflexivity. }
    rewrite Hns, Hkey. split; [done|]. split; [done|]. split; [|discriminate].
    apply get_node_None. rewrite Hns, Hkey. apply lookup_delete_eq.
  - exists w, l. split.
    { unfold unload, evict_node_key, bindM, gets. rewrite Hp. reflexivity. }
    split; [done|]. split; [by rewrite delete_id|].
    split; [by apply get_node_None|]. done.
Qed.

(** X5: [unload_all] empties the cache: index empty, count 0, every lookup
    misses. It calls the autoloader's eviction hook for every entry, from the
    least to the most recently used. It keeps the capacity, the path and the
    in-progress set. *)
Theorem unload_all_empties w l :
  lru_inv w l ->
  exists w', unload_all w = Some (tt, w') /\ lru_inv w' [] /\
    node_set w' = ∅ /\ node_count w' = 0 /\
    (forall k, get_node k w' = Some (None, w')) /\
    log w' = log w ++ evict_events autoload_node_was_evicted (heap w) (rev l) /\
    max_node_count w' = max_node_count w /\ path w' = path w /\
    is_loading_set w' = is_loading_set w.
Proof.
  intros Hinv.
  destruct (evict_all_nodes_spec _ autoload_hook_payload w l Hinv)
    as (w' & Hrun & Hinv' & Hfr & Hlog).
  destruct Hfr as (Hm & _ & Hpa & Hls & _).
  pose proof (empty_index _ Hinv') as He.
  exists w'. split; [exact Hrun|]. split; [done|]. split; [done|].
  split; [exact (inv_count _ _ Hinv')|].
  split; [intros k; apply get_node_None; rewrite He; apply lookup_empty|].
  done.
Qed.

(** X6: on a table sorted by name, [std::lower_bound] with
    [script_name_precedes_script_name] returns the index that splits the
    table. The names before it precede the searched name; those from it on
    do not. *)
Theorem lower_bound_partitions arr val :
  names_sorted arr ->
  lower_bound arr val <= length arr /\
  (forall i b, i < lower_bound arr val -> arr !! i = Some b ->
     String.compare (bname b) (bname val) = Lt) /\
  (forall i b, lower_bound arr val <= i -> arr !! i = Some b ->
     String.compare (bname b) (bname val) <> Lt).
Proof.
  intros Hs.
  assert (Hmono : forall i k, i < k < length arr ->
            script_name_precedes_script_name (nth k arr val) val = true ->
            script_name_precedes_script_name (nth i arr val) val = true).
  { intros i k Hik. unfold script_name_precedes_script_name.
    destruct (lookup_lt_is_Some_2 arr i ltac:(lia)) as [a Ha].
    destruct (lookup_lt_is_Some_2 arr k ltac:(lia)) as [b Hb].
    rewrite (nth_lookup_Some _ _ _ _ Ha), (nth_lookup_Some _ _ _ _ Hb).
    pose proof (Hs i k a b ltac:(lia) Ha Hb) as Hab.
    destruct (String.compare (bname b) (bname val)) eqn:Hbc; try discriminate. intros _.
    destruct (String.compare (bname a) (bname b)) eqn:Hab'; [| |done].
    - apply String.compare_eq_iff in Hab'. by rewrite Hab', Hbc.
    - by rewrite (string_compare_lt_trans _ _ _ Hab' Hbc). }
  destruct (lower_bound_loop_spec arr val Hmono (length arr) 0 (length arr))
    as (Hr & Hlo & Hhi); [lia|lia|lia|lia|].
  fold (lower_bound arr val) in Hr, Hlo, Hhi.
  split; [done|]. split.
  - intros i b Hi Hb. pose proof (Hlo i Hi) as H.
    unfold script_name_precedes_script_name in H. rewrite (nth_lookup_Some _ _ _ _ Hb) in H.
    by destruct (String.compare (bname b) (bname val)).
  - intros i b Hi Hb Hc. apply (Hhi i); [split; [done|by eapply lookup_lt_Some]|].
    unfold script_name_precedes_script_name. rewrite (nth_lookup_Some _ _ _ _ Hb), Hc. done.
Qed.

(** X7: the builtin-script search returns only a table entry whose name is
    the command, whether or not the table is sorted. It finds nothing in an
    empty table. On a sorted table it finds an entry whenever one has the
    command's name. *)
Theorem matching_builtin_script_exact env cmd :
  (forall e, matching_builtin_script env cmd = Some e ->
     e ∈ builtin_scripts env /\ bname e = cmd) /\
  (builtin_scripts env = [] -> matching_builtin_script env cmd = None) /\
  (names_sorted (builtin_scripts env) ->
     (exists e, e ∈ builtin_scripts env /\ bname e = cmd) ->
     exists e, matching_builtin_script env cmd = Some e).
Proof.
  split; [|split].
  - intros e. unfold matching_builtin_script.
    set (arr := builtin_scripts env). set (val := mkBuiltin cmd ""%string).
    destruct (Nat.ltb 0 (length arr)); [|discriminate].
    set (r := lower_bound arr val).
    destruct (negb (Nat.eqb r (length arr))) eqn:Hr; [|discriminate].
    destruct (String.compare (bname (nth r arr val)) cmd) eqn:Hc; simpl; try discriminate.
    intros He. injection He as <-. apply negb_true_iff, Nat.eqb_neq in Hr.
    destruct (decide (r < length arr)) as [Hlt|Hge].
    + destruct (lookup_lt_is_Some_2 arr r Hlt) as [a Ha].
      rewrite (nth_lookup_Some _ _ _ _ Ha) in Hc |- *.
      split; [by eapply list_elem_of_lookup_2|]. by apply String.compare_eq_iff.
    + exfalso. unfold r, lower_bound in Hr, Hge.
      (* the search never returns past the end *)
      assert (Hle : forall f first len, first + len <= length arr ->
                lower_bound_loop f arr val first len <= length arr).
      { induction f as [|f IH]; intros first len Hl; simpl; [lia|].
        destruct (Nat.ltb_spec 0 len); [|lia].
        pose proof (Nat.lt_div2 len ltac:(lia)).
        destruct (script_name_precedes_script_name _ _); apply IH; lia. }
      pose proof (Hle (length arr) 0 (length arr) ltac:(lia)). lia.
  - intros He. unfold matching_builtin_script. rewrite He. reflexivity.
  - intros Hs Hex. destruct (matching_builtin_script_found env cmd Hs Hex) as (e & He & _).
    by exists e.
Qed.

(** X9: when a file is found, [found_file_at] records the probe's access
    attempt in the command's entry, whatever else it does. For an existing
    entry it marks the entry loaded when it reloads. If the entry was already
    loaded, it also unregisters the command and clears [is_placeholder]. A
    new entry is inserted, marked loaded when really loading, and not a
    placeholder. *)
Theorem found_file_records_access env w l cmd fpath rl acc :
  lru_inv w l ->
  (forall p, node_set w !! cmd = Some p ->
   exists (need : bool) w',
     found_file_at env cmd fpath rl acc w =
       Some ((if need then Some (". " ++ escape_string env fpath)%string else None, need), w') /\
     node_set w' = node_set w /\
     need = rl && (Z.eqb (mod_time (access (heap w p))) (mod_time acc)
                   || negb (is_loaded (heap w p))) /\
     access (heap w' p) = acc /\
     is_loaded (heap w' p) = is_loaded (heap w p) || need /\
     is_placeholder (heap w' p) = is_placeholder (heap w p) && negb (need && is_loaded (heap w p)) /\
     log w' = log w ++ (if need && is_loaded (heap w p) then [CommandRemoved cmd] else [])) /\
  (node_set w !! cmd = None -> 0 < max_node_count w ->
   exists w',
     found_file_at env cmd fpath rl acc w =
       Some ((if rl then Some (". " ++ escape_string env fpath)%string else None, rl), w') /\
     node_set w' !! cmd = Some (next_alloc w) /\
     payload (heap w' (next_alloc w)) = (cmd, acc, rl, false)).
Proof.
  intros Hinv. split.
  - intros p Hp.
    destruct (get_node_spec _ autoload_hook_payload w l cmd p Hinv Hp)
      as (l1 & l2 & -> & Hget & Hinv1 & Hpay).
    set (w1 := with_heap (link_front_heap (unlink_heap (heap w) p) p) w) in *.
    unfold found_file_at. rewrite (bind_Some _ _ _ _ _ Hget).
    cbn.
    pose proof (Hpay p) as Hk. unfold payload in Hk. injection Hk as Hk Ha Hl Hph.
    rewrite Ha, Hl.
    destruct (rl && _) eqn:Hneed.
    + exists true. destruct (is_loaded (heap w p)) eqn:El.
      * eexists. split; [reflexivity|]. unfold wr_fld. simpl.
        rewrite !upd_eq. simpl. rewrite ?Ha, ?Hl, ?Hph, ?andb_false_r; done.
      * eexists. split; [reflexivity|]. unfold wr_fld. simpl.
        rewrite !upd_eq. simpl. rewrite ?Ha, ?Hl, ?Hph, ?andb_true_r, ?app_nil_r; done.
    + exists false. eexists. split; [reflexivity|]. unfold wr_fld. simpl.
      rewrite !upd_eq. simpl. rewrite ?Ha, ?Hl, ?Hph, ?orb_false_r, ?andb_true_r, ?app_nil_r; done.
  - intros Hp Hmax.
    destruct (alloc_spec _ autoload_hook_payload w l cmd Hinv)
      as (Hinv1 & Hpn & Hfr1 & Hns1 & Hlog1 & Hc1 & Hh1).
    set (p := next_alloc w) in *. set (w1 := alloc_world w cmd) in *.
    assert (Hna1 : p < next_alloc w1) by (unfold w1, alloc_world; simpl; lia).
    assert (Hns1' : node_set w1 !! key (heap w1 p) = None) by (rewrite Hh1, Hns1; exact Hp).
    destruct (insert_new_spec w1 l p rl Hinv1 Hpn Hna1 Hns1') as (w2 & Hrun & Hinv2 & Hfr2 & Hlog2).
    assert (Hin2 : node_set w2 !! cmd = Some p).
    { apply (inv_index _ _ Hinv2). destruct Hfr2 as (Hm2 & _ & _ & _ & Hpl2).
      split.
      - change (max_node_count w1) with (max_node_count w).
        destruct (max_node_count w) as [|m]; [lia|]. simpl. set_solver.
      - pose proof (Hpl2 p Hna1) as Hq. unfold payload in Hq. injection Hq as Hq _ _ _.
        transitivity (key (heap w1 p)); [exact Hq|by rewrite Hh1]. }
    assert (Hpay2 : payload (heap w2 p) = (cmd, access_zero, false, false)).
    { destruct Hfr2 as (_ & _ & _ & _ & Hpl2). rewrite (Hpl2 p Hna1), Hh1. done. }
    unfold payload in Hpay2. injection Hpay2 as Hk2 Ha2 Hl2 Hph2.
    unfold found_file_at. rewrite (bind_Some _ _ _ _ _ (get_node_None w cmd Hp)).
    rewrite (bind_Some (rd_opt_node None) _ w None w eq_refl). cbv beta iota.
    rewrite andb_true_r.
    assert (Hp0 : (p0 <- new_autoload_function cmd;; insert_new p0 rl;;; retM p0) w = Some (p, w2)).
    { rewrite (bind_Some _ _ _ p w1 (new_autoload_function_eq w cmd)).
      change ((insert_new p rl ;;; retM p) w1 = Some (p, w2)).
      by rewrite (bind_Some _ _ _ _ _ Hrun). }
    destruct rl.
    + rewrite (bind_Some _ _ w (Some (". " ++ escape_string env fpath)%string, true) w eq_refl).
      rewrite (bind_Some _ _ _ _ _ Hp0).
      eexists. split; [reflexivity|]. unfold wr_fld. simpl. split; [done|].
      rewrite !upd_eq. unfold payload. simpl. by rewrite Hk2, Hph2.
    + rewrite (bind_Some _ _ w (None, false) w eq_refl).
      rewrite (bind_Some _ _ _ _ _ Hp0).
      eexists. split; [reflexivity|]. unfold wr_fld. simpl. split; [done|].
      rewrite !upd_eq. unfold payload. simpl. by rewrite Hk2, Hl2, Hph2.
Qed.

(** Concrete instances of the properties above. *)

Lemma get_node_lookup_promotes_witness :
  exists w' l', get_node "foo" (demo_world 4 "foo") =
      Some (node_set (demo_world 4 "foo") !! "foo", w') /\ lru_inv w' l'.
Proof.
  destruct (get_node_lookup_promotes (demo_world 4 "foo") [2] "foo"
              (demo_world_inv 4 "foo" ltac:(lia))) as (w' & l' & H1 & H2 & _).
  exists w', l'. split; assumption.
Defined.

Lemma add_node_insert_lookup_witness :
  exists w', add_node autoload_node_was_evicted 2 (alloc_world (init_world 4) "foo") = Some (true, w') /\
    node_set w' !! "foo" = Some 2.
Proof.
  destruct (alloc_spec _ autoload_hook_payload (init_world 4) [] "foo" (init_world_inv 4))
    as (Hinv & Hn & _).
  destruct (add_node_insert_lookup autoload_node_was_evicted autoload_hook_payload
              (alloc_world (init_world 4) "foo") [] 2 Hinv Hn ltac:(simpl; lia)) as [_ H].
  destruct (H ltac:(vm_compute; reflexivity)) as (w' & Hrun & _ & Hlk & _).
  exists w'. split; [exact Hrun|exact Hlk].
Defined.

Lemma evict_last_node_lru_witness :
  exists w', evict_last_node autoload_node_was_evicted (demo_world 4 "foo") = Some (tt, w') /\
    lru_inv w' [].
Proof.
  destruct (evict_last_node_lru _ autoload_hook_payload (demo_world 4 "foo") [2]
              (demo_world_inv 4 "foo" ltac:(lia))) as [_ H].
  destruct (H [] 2 eq_refl) as (w' & Hrun & Hinv & _).
  exists w'. split; assumption.
Defined.

Lemma unload_then_lookup_misses_witness :
  exists w', unload "foo" (demo_world 4 "foo") = Some (true, w') /\
    get_node "foo" w' = Some (None, w').
Proof.
  destruct (unload_then_lookup_misses (demo_world 4 "foo") [2] "foo"
              (demo_world_inv 4 "foo" ltac:(lia))) as (w' & l' & Hrun & _ & _ & Hget & _).
  exists w'. split; [exact Hrun|exact Hget].
Defined.

Lemma unload_all_empties_witness :
  exists w', unload_all (demo_world 4 "foo") = Some (tt, w') /\ node_set w' = ∅.
Proof.
  destruct (unload_all_empties (demo_world 4 "foo") [2] (demo_world_inv 4 "foo" ltac:(lia)))
    as (w' & Hrun & _ & Hns & _).
  exists w'. split; assumption.
Defined.

Lemma lower_bound_partitions_witness :
  names_sorted demo_builtins /\
  (forall i b, i < lower_bound demo_builtins (mkBuiltin "m" "") ->
     demo_builtins !! i = Some b -> String.compare (bname b) "m" = Lt).
Proof.
  split; [exact demo_names_sorted|].
  apply (lower_bound_partitions demo_builtins (mkBuiltin "m" "") demo_names_sorted).
Defined.

Lemma matching_builtin_script_exact_witness :
  exists e, matching_builtin_script demo_env "abbr" = Some e /\ bname e = "abbr".
Proof.
  destruct (matching_builtin_script_exact demo_env "abbr") as (H1 & _ & H3).
  destruct (H3 demo_names_sorted) as (e & He).
  { exists (mkBuiltin "abbr" "abbr-body"). split; [by left|reflexivity]. }
  exists e. split; [exact He|]. exact (proj2 (H1 e He)).
Defined.

Lemma search_path_first_match_witness :
  exists r w', search_path demo_env "foo" true ["/q"; "/p"] (init_world 4) = Some (r, w') /\
    exists evs, log w' = log (init_world 4) ++ probes "foo" ["/q"; "/p"] ++ evs.
Proof.
  destruct (search_path_first_match demo_env (init_world 4) [] "foo" true ["/q"] "/p" [] 5
              (init_world_inv 4) eq_refl eq_refl)
    as (reloaded & w' & l' & evs & Hrun & _ & Hlog & _).
  eexists. exists w'. split; [exact Hrun|]. exists evs. exact Hlog.
Defined.

Lemma found_file_records_access_witness :
  exists w', found_file_at demo_env "foo" "/p/foo.fish" true (mkAccess 5 100 true false 0)
      (init_world 4) = Some ((Some ". /p/foo.fish"%string, true), w') /\
    payload (heap w' 2) = ("foo"%string, mkAccess 5 100 true false 0, true, false).
Proof.
  destruct (found_file_records_access demo_env (init_world 4) [] "foo" "/p/foo.fish" true
              (mkAccess 5 100 true false 0) (init_world_inv 4)) as [_ H].
  destruct (H eq_refl ltac:(simpl; lia)) as (w' & Hrun & _ & Hpay).
  exists w'. split; [exact Hrun|exact Hpay].
Defined.


Lemma can_load_never_loads_witness :
  exists w', can_load demo_env "foo" (Some "/p"%string) (init_world 4) = Some (true, w').
Proof.
  destruct (can_load_never_loads demo_env (init_world 4) [] "foo" "/p"
              (init_world_inv 4) ltac:(discriminate))
    as (_ & _ & b & w' & l' & evs & Hrun & _ & _ & _ & _ & _ & _ & Hb).
  rewrite (Hb eq_refl) in Hrun. exists w'. exact Hrun.
Defined.



(** X13: what [locate_file_and_maybe_load_it] returns.  When the cached
    entry answers, it returns the entry's recorded accessibility and has no
    effect.  Otherwise, with [really_load] it returns true exactly when no
    builtin script matched and a script was run (a builtin script is run
    but reported as false); without [really_load] it returns whether a
    builtin matched or an accessible file is on the path, and runs
    nothing. *)
Theorem locate_result_meaning env w l cmd rl reload dirs :
  lru_inv w l ->
  exists b w' evs,
    locate_file_and_maybe_load_it env cmd rl reload dirs w = Some (b, w') /\
    log w' = log w ++ evs /\
    (can_use_cached env rl reload (cached_entry w cmd) = true ->
       evs = [] /\
       b = match cached_entry w cmd with Some n => accessible (access n) | None => false end) /\
    (can_use_cached env rl reload (cached_entry w cmd) = false ->
       (rl = true ->
          (b = true <-> matching_builtin_script env cmd = None /\
                        exists s, SubshellRun s ∈ evs)) /\
       (rl = false ->
          b = match matching_builtin_script env cmd with Some _ => true | None => false end
              || existsb (fun d => probe_ok env (candidate cmd d)) dirs /\
          Forall (fun e => is_exec e = false) evs)).
Proof.
  intros Hinv.
  destruct (locate_spec env w l cmd rl reload dirs Hinv)
    as (b & w' & l' & evs & Hrun & _ & Hlog & Hcy & Hcn).
  exists b, w', evs. split; [done|]. split; [done|]. split.
  { intros H. destruct (Hcy H) as (? & _ & ?). done. }
  intros H. specialize (Hcn H).
  destruct (matching_builtin_script env cmd) as [bi|].
  - destruct Hcn as (-> & _ & ->). split.
    + intros ->. simpl. split; [discriminate|]. intros [? _]. discriminate.
    + intros ->. simpl. split; [done|constructor].
  - destruct Hcn as (found & reloaded & evs1 & src & Hf & Hrel & Hex & -> & ->). split.
    + intros ->. simpl. destruct reloaded; simpl.
      * split; [intros _; split; [done|exists src; set_solver]|done].
      * rewrite app_nil_r. split; [discriminate|]. intros [_ [s Hs]].
        rewrite Forall_forall in Hex. apply Hex in Hs. discriminate.
    + intros ->. simpl. rewrite app_nil_r. split; [exact Hf|exact Hex].
Qed.

Lemma locate_result_meaning_witness :
  exists b w' evs,
    locate_file_and_maybe_load_it demo_env "foo" true false ["/p"] (init_world 4) = Some (b, w') /\
    log w' = log (init_world 4) ++ evs /\
    (can_use_cached demo_env true false (cached_entry (init_world 4) "foo") = true ->
       evs = [] /\
       b = match cached_entry (init_world 4) "foo" with
           | Some n => accessible (access n) | None => false end) /\
    (can_use_cached demo_env true false (cached_entry (init_world 4) "foo") = false ->
       (true = true ->
          (b = true <-> matching_builtin_script demo_env "foo" = None /\
                        exists s, SubshellRun s ∈ evs)) /\
       (true = false ->
          b = match matching_builtin_script demo_env "foo" with Some _ => true | None => false end
              || existsb (fun d => probe_ok demo_env (candidate "foo" d)) ["/p"] /\
          Forall (fun e => is_exec e = false) evs)).
Proof. apply (locate_result_meaning demo_env (init_world 4) []). apply init_world_inv. Defined.
